(** * PageRankApp (week5/app.js): graph construction, recommendations and
      the compute-button life cycle, with the PageRank engine of the
      design document.

    Conventions of the embedding.
    - A node identifier is an integer ([Z]); JavaScript numbers that are
      integers below 2^53 in magnitude behave as such under [-], [===],
      [Set], [includes] and as object keys.
    - A score is an exact rational ([Qc]); rounding of binary64 is not part
      of the model.
    - [undefined] and [NaN] are [None]; a thrown exception is [Throw].
    - A JavaScript object keyed by node identifiers is a [gmap Z _]; an
      array is a [list]; a [Set] is the list of its members in insertion
      order. *)

From Stdlib Require Import ZArith QArith Qcanon Qcabs String Ascii.
From stdpp Require Import base numbers option list sorting gmap strings fin_maps.

Local Open Scope Z_scope.

(* ================================================================== *)
(** * Part I. Definitions                                              *)
(* ================================================================== *)

(** ** Completions of a method body *)

Inductive exn : Type :=
  | TypeError
  | InvalidInput.

Inductive completion (A : Type) : Type :=
  | Normal (a : A)
  | Throw (e : exn).
Arguments Normal {A} a.
Arguments Throw {A} e.

(** ** Built-ins of the host language *)

(** [String.prototype.trim] and the [Number] conversion are taken as an
    interface: nothing below depends on which strings they accept.
    [Number s = None] stands for [NaN], and [Number s = Some z] for a
    field that denotes the integer [z]; fields that denote a fraction or
    an infinity are not represented. *)
Class Builtins : Type := {
  trim : string → string;
  Number : string → option Z
}.

(** [s.split(sep)] for a one-character separator: always at least one
    field. *)
Fixpoint split (sep : ascii) (s : string) : list string :=
  match s with
  | EmptyString => [EmptyString]
  | String c s' =>
      if Ascii.eqb c sep then EmptyString :: split sep s'
      else match split sep s' with
           | f :: fs => String c f :: fs
           | [] => [String c EmptyString]
           end
  end.

(** The largest power of ten that is at most [x], searched from [p]
    upwards. *)
Fixpoint powerOfTenBelow (fuel : nat) (x p : Z) : Z :=
  match fuel with
  | O => p
  | S fuel' => if 10 * p <=? x then powerOfTenBelow fuel' x (10 * p) else p
  end.

(** The first digit of the shortest decimal numeral that reads back as
    the binary64 number [x], for [x] from 1e21 on.  It is the first digit
    [d] of [x] itself, unless the next one-digit multiple of the power of
    ten, [(d + 1) * p], lies within half a unit in the last place above
    [x] (a tie reads back as [x] when the significand of [x] is even);
    then the numeral is that multiple. *)
Definition printedFirstDigit (x : Z) : Z :=
  let p := powerOfTenBelow (Z.to_nat (Z.log2 x)) x 1 in
  let d := x / p in
  let e := Z.log2 x - 52 in
  let significand := x / 2 ^ e in
  let gap := (d + 1) * p - x in
  let readsBack :=
    (gap <? 2 ^ (e - 1)) || ((gap =? 2 ^ (e - 1)) && Z.even significand) in
  if readsBack then (if d =? 9 then 1 else d + 1) else d.

(** [parseInt(n)] of a number prints [n] and reads the leading run of
    digits back.  Below 1e21 in magnitude the print is a plain decimal
    numeral of [n]; from 1e21 on it is in exponent notation, such as
    [1e+21] or [1.5e+21], and only the first digit is read. *)
Definition parseInt (n : Z) : Z :=
  if Z.abs n <? 10 ^ 21 then n else Z.sgn n * printedFirstDigit (Z.abs n).

(** The sign of a comparator's result, which is all [sort] looks at;
    [NaN] counts as zero. *)
Definition sgnZ (z : Z) : comparison := (z ?= 0)%Z.

Definition sgnQc (q : option Qc) : comparison :=
  match q with
  | Some x => (x ?= 0)%Qc
  | None => Eq
  end.

(** [Array.prototype.sort(cmp)]: the sort is stable, so for a consistent
    comparator its result is that of the stable insertion sort. *)
Fixpoint sort_insert {A} (cmp : A → A → comparison) (x : A) (l : list A) : list A :=
  match l with
  | [] => [x]
  | y :: l' =>
      match cmp x y with
      | Gt => y :: sort_insert cmp x l'
      | _ => x :: y :: l'
      end
  end.

Definition Array_sort {A} (cmp : A → A → comparison) (l : list A) : list A :=
  foldr (sort_insert cmp) [] l.

(** [Set]: members in insertion order. *)
Definition Set_has (s : list Z) (x : Z) : bool := bool_decide (x ∈ s).

Definition Set_add (x : Z) (s : list Z) : list Z :=
  if Set_has s x then s else s ++ [x].

Definition Set_new (l : list Z) : list Z :=
  foldl (λ s x, Set_add x s) [] l.

(** ** The graph *)

Record Node : Type := { id : Z }.

Record Edge : Type := { source : Z; target : Z }.

Record Graph : Type := {
  nodes : list Node;
  edges : list Edge;
  adjacencyList : gmap Z (list Z)
}.

(** [(a, b) => a - b] *)
Definition byId (a b : Z) : comparison := sgnZ (a - b).

(** One turn of the [for (const line of lines)] loop of parseCSVToGraph. *)
Definition parseLine `{Builtins} (st : list Edge * list Z) (line : string)
    : list Edge * list Z :=
  let '(edges, nodes) := st in
  match Number <$> split "," line with
  | Some source :: Some target :: _ =>
      (edges ++ [ {| source := source; target := target |} ],
       Set_add target (Set_add source nodes))
  | _ => (edges, nodes)
  end.

(** One turn of [edges.forEach] of parseCSVToGraph. *)
Definition addEdge (adjacencyList : gmap Z (list Z)) (edge : Edge) : gmap Z (list Z) :=
  let adjacencyList :=
    match adjacencyList !! source edge with
    | Some l =>
        if bool_decide (target edge ∈ l) then adjacencyList
        else <[source edge := l ++ [target edge]]> adjacencyList
    | None => adjacencyList
    end in
  match adjacencyList !! target edge with
  | Some l =>
      if bool_decide (source edge ∈ l) then adjacencyList
      else <[target edge := l ++ [source edge]]> adjacencyList
  | None => adjacencyList
  end.

Definition parseCSVToGraph `{Builtins} (csvText : string) : Graph :=
  let lines := split "010" (trim csvText) in
  let '(edges, nodes) := foldl parseLine ([], []) lines in
  let adjacencyList :=
    foldl (λ adj node, <[node := []]> adj) ∅ (Array_sort byId nodes) in
  let adjacencyList := foldl addEdge adjacencyList edges in
  {| nodes := (λ id, {| id := id |}) <$> Array_sort byId nodes;
     edges := edges;
     adjacencyList := adjacencyList |}.

(** connectNodes, as far as the graph goes: the edge is recorded first,
    and [adjacencyList[x].includes] throws when [x] is not a key, leaving
    whatever was written before. *)
Definition connectNodes_graph (sourceId targetId : Z) (g : Graph)
    : Graph * completion unit :=
  let g := {| nodes := nodes g;
              edges := edges g ++ [ {| source := sourceId; target := targetId |} ];
              adjacencyList := adjacencyList g |} in
  match adjacencyList g !! sourceId with
  | None => (g, Throw TypeError)
  | Some ls =>
      let adj :=
        if bool_decide (targetId ∈ ls) then adjacencyList g
        else <[sourceId := ls ++ [targetId]]> (adjacencyList g) in
      let g := {| nodes := nodes g; edges := edges g; adjacencyList := adj |} in
      match adj !! targetId with
      | None => (g, Throw TypeError)
      | Some lt =>
          let adj :=
            if bool_decide (sourceId ∈ lt) then adj
            else <[targetId := lt ++ [sourceId]]> adj in
          ({| nodes := nodes g; edges := edges g; adjacencyList := adj |},
           Normal ())
      end
  end.

(** ** Application state *)

Inductive SortKey : Type := ById | ByPageRank | ByFriendCount.
Inductive SortOrder : Type := Asc | Desc.

#[global] Instance SortKey_eq_dec : EqDecision SortKey.
Proof. solve_decision. Defined.

Record PageRankApp : Type := {
  graph : option Graph;
  pageRankScores : option (gmap Z Qc);
  selectedNode : option Z;
  isComputing : bool;
  sortBy : SortKey;
  sortOrder : SortOrder
}.

Definition with_graph (g : option Graph) (a : PageRankApp) : PageRankApp :=
  {| graph := g; pageRankScores := pageRankScores a;
     selectedNode := selectedNode a; isComputing := isComputing a;
     sortBy := sortBy a; sortOrder := sortOrder a |}.

Definition with_scores (s : option (gmap Z Qc)) (a : PageRankApp) : PageRankApp :=
  {| graph := graph a; pageRankScores := s;
     selectedNode := selectedNode a; isComputing := isComputing a;
     sortBy := sortBy a; sortOrder := sortOrder a |}.

Definition with_selected (n : option Z) (a : PageRankApp) : PageRankApp :=
  {| graph := graph a; pageRankScores := pageRankScores a;
     selectedNode := n; isComputing := isComputing a;
     sortBy := sortBy a; sortOrder := sortOrder a |}.

Definition with_computing (b : bool) (a : PageRankApp) : PageRankApp :=
  {| graph := graph a; pageRankScores := pageRankScores a;
     selectedNode := selectedNode a; isComputing := b;
     sortBy := sortBy a; sortOrder := sortOrder a |}.

Definition with_sort (k : SortKey) (o : SortOrder) (a : PageRankApp) : PageRankApp :=
  {| graph := graph a; pageRankScores := pageRankScores a;
     selectedNode := selectedNode a; isComputing := isComputing a;
     sortBy := k; sortOrder := o |}.

(** The state the constructor leaves before the first graph is loaded. *)
Definition newApp : PageRankApp :=
  {| graph := None; pageRankScores := None; selectedNode := None;
     isComputing := false; sortBy := ById; sortOrder := Asc |}.

(** ** Recommendations *)

Record Recommendation : Type := { node : Z; score : option Qc }.

(** [(a, b) => b.score - a.score]; the difference is [NaN] when a score
    is [undefined]. *)
Definition byScoreDesc (a b : Recommendation) : comparison :=
  sgnQc (match score b, score a with
         | Some x, Some y => Some (x - y)%Qc
         | _, _ => None
         end).

Definition getRecommendations (a : PageRankApp) (nodeId : Z)
    : completion (list Recommendation) :=
  match pageRankScores a with
  | None => Normal []
  | Some scores =>
      match graph a with
      | None => Throw TypeError
      | Some g =>
          let currentFriends :=
            Set_add (parseInt nodeId)
                    (Set_new (default [] (adjacencyList g !! nodeId))) in
          let recommendations :=
            foldl (λ recs nd,
                     if Set_has currentFriends (id nd) then recs
                     else recs ++ [ {| node := id nd; score := scores !! id nd |} ])
                  [] (nodes g) in
          Normal (take 3 (Array_sort byScoreDesc recommendations))
      end
  end.

(** ** What the table and the details pane can throw *)

(** updateTable: [this.pageRankScores[id].toFixed(4)] throws on a node
    without a score. *)
Definition updateTable (a : PageRankApp) : completion unit :=
  match graph a with
  | None => Throw TypeError
  | Some g =>
      match pageRankScores a with
      | None => Normal ()
      | Some scores =>
          if forallb (λ nd, bool_decide (is_Some (scores !! id nd))) (nodes g)
          then Normal () else Throw TypeError
      end
  end.

(** showNodeDetails: [toFixed] on the score of each recommendation and on
    the score of the node shown. *)
Definition showNodeDetails (a : PageRankApp) (nodeId : Z) : completion unit :=
  match graph a with
  | None => Throw TypeError
  | Some g =>
      match pageRankScores a with
      | None => Normal ()
      | Some scores =>
          match getRecommendations a nodeId with
          | Throw e => Throw e
          | Normal recs =>
              if forallb (λ r, bool_decide (is_Some (score r))) recs
                 && bool_decide (is_Some (scores !! nodeId))
              then Normal () else Throw TypeError
          end
      end
  end.

(** [if (this.selectedNode)]: identifier 0 is falsy. *)
Definition truthy (n : option Z) : option Z :=
  match n with
  | Some 0 => None
  | _ => n
  end.

(** ** The page around the application *)

Record Button : Type := { disabled : bool; textContent : string }.

Inductive Alert : Type :=
  | ComputeError
  | Connected (sourceId targetId : Z).

(** [pending] lists the engine invocations that are awaited, oldest
    first, each with the adjacency list it was handed. *)
Record World : Type := {
  app : PageRankApp;
  computeBtn : Button;
  alerts : list Alert;
  pending : list (gmap Z (list Z))
}.

Definition with_app (a : PageRankApp) (w : World) : World :=
  {| app := a; computeBtn := computeBtn w; alerts := alerts w;
     pending := pending w |}.

Definition idleBtn : Button :=
  {| disabled := false; textContent := "Compute PageRank" |}.

Definition busyBtn : Button :=
  {| disabled := true; textContent := "Computing..." |}.

Definition newWorld : World :=
  {| app := newApp; computeBtn := idleBtn; alerts := []; pending := [] |}.

(** How an awaited engine invocation settles. *)
Inductive outcome : Type :=
  | Resolved (scores : gmap Z Qc)
  | Rejected.

(** The [catch] and [finally] blocks of computePageRank. *)
Definition computePageRank_finally (thrown : bool) (w : World) : World :=
  {| app := with_computing false (app w);
     computeBtn := idleBtn;
     alerts := alerts w ++ (if thrown then [ComputeError] else []);
     pending := pending w |}.

(** computePageRank up to its [await]: the flag [true] says that the
    engine was invoked and the method is suspended. *)
Definition computePageRank_begin (w : World) : World * bool :=
  if isComputing (app w) then (w, false)
  else
    let w := {| app := with_computing true (app w); computeBtn := busyBtn;
                alerts := alerts w; pending := pending w |} in
    match graph (app w) with
    | None => (computePageRank_finally true w, false)
    | Some g =>
        ({| app := app w; computeBtn := computeBtn w; alerts := alerts w;
            pending := pending w ++ [adjacencyList g] |}, true)
    end.

(** The statements that follow the assignment inside [try]. *)
Definition afterAssign (a : PageRankApp) : completion unit :=
  match updateTable a with
  | Throw e => Throw e
  | Normal _ =>
      match truthy (selectedNode a) with
      | Some n => showNodeDetails a n
      | None => Normal ()
      end
  end.

(** computePageRank from its [await] on, once the oldest awaited
    invocation has settled. *)
Definition computePageRank_resume (o : outcome) (w : World) : World :=
  match pending w with
  | [] => w
  | _ :: rest =>
      let w := {| app := app w; computeBtn := computeBtn w;
                  alerts := alerts w; pending := rest |} in
      match o with
      | Rejected => computePageRank_finally true w
      | Resolved scores =>
          let w := with_app (with_scores (Some scores) (app w)) w in
          match afterAssign (app w) with
          | Throw _ => computePageRank_finally true w
          | Normal _ => computePageRank_finally false w
          end
      end
  end.

Definition settle (r : completion (gmap Z Qc)) : outcome :=
  match r with
  | Normal scores => Resolved scores
  | Throw _ => Rejected
  end.

(** One whole call of the method with nothing else interleaved: the
    engine is invoked as [computePageRank(adjacencyList, 50, 0.85)]. *)
Definition computePageRank_run
    (engine : gmap Z (list Z) → Z → Qc → completion (gmap Z Qc))
    (w : World) : World :=
  match computePageRank_begin w with
  | (w', true) =>
      match graph (app w) with
      | Some g =>
          computePageRank_resume
            (settle (engine (adjacencyList g) 50 (Q2Qc (85 # 100)))) w'
      | None => w'
      end
  | (w', false) => w'
  end.

(** connectNodes: the success alert and the recomputation are reached
    only when neither [includes] threw. *)
Definition connectNodes (sourceId targetId : Z) (w : World) : World :=
  match graph (app w) with
  | None => w
  | Some g =>
      match connectNodes_graph sourceId targetId g with
      | (g', Throw _) => with_app (with_graph (Some g') (app w)) w
      | (g', Normal _) =>
          let w := {| app := with_graph (Some g') (app w);
                      computeBtn := computeBtn w;
                      alerts := alerts w ++ [Connected sourceId targetId];
                      pending := pending w |} in
          fst (computePageRank_begin w)
      end
  end.

(** resetGraph; the graph itself arrives later, when loadDefaultData
    completes. *)
Definition resetGraph (w : World) : World :=
  with_app
    (with_sort ById Asc (with_selected None (with_scores None (app w)))) w.

Definition sortTable (column : string) (w : World) : World :=
  let sortKey :=
    if String.eqb column "pagerank" then ByPageRank
    else if String.eqb column "friends" then ByFriendCount
    else ById in
  let a := app w in
  if bool_decide (sortBy a = sortKey)
  then with_app (with_sort (sortBy a)
                   (match sortOrder a with Asc => Desc | Desc => Asc end) a) w
  else with_app (with_sort sortKey Asc a) w.

(** ** The page as a transition system *)

(** What can happen between two turns of the event loop.  [Loaded g] is
    loadDefaultData completing with whichever graph it installs (the
    parsed text or the fallback). *)
Inductive event : Type :=
  | ClickCompute
  | Settle (o : outcome)
  | ClickConnect (sourceId targetId : Z)
  | ClickReset
  | Loaded (g : Graph)
  | SelectNode (nodeId : Z)
  | ClickHeader (column : string).

Definition step (w : World) (ev : event) : World :=
  match ev with
  | ClickCompute => fst (computePageRank_begin w)
  | Settle o => computePageRank_resume o w
  | ClickConnect s t => connectNodes s t w
  | ClickReset => resetGraph w
  | Loaded g => with_app (with_graph (Some g) (app w)) w
  | SelectNode n => with_app (with_selected (Some n) (app w)) w
  | ClickHeader c => sortTable c w
  end.

Definition run (evs : list event) : World := foldl step newWorld evs.

(** ** A runnable instance of the built-ins *)

(** The part of the host's conversions that concerns ASCII text and
    decimal integer literals: [trim] strips ASCII white space, and
    [Number] reads an optionally signed run of digits, the empty string
    being 0.  It serves to run the definitions above on concrete texts
    made of such fields. *)
Definition isSpace (c : ascii) : bool :=
  bool_decide (c ∈ [" "; "009"; "010"; "011"; "012"; "013"]%char).

Fixpoint trimStart (s : string) : string :=
  match s with
  | EmptyString => EmptyString
  | String c s' => if isSpace c then trimStart s' else s
  end.

Definition trimAscii (s : string) : string :=
  String.rev (trimStart (String.rev (trimStart s))).

Definition digit (c : ascii) : option Z :=
  let n := Z.of_N (N_of_ascii c) in
  if (48 <=? n) && (n <=? 57) then Some (n - 48) else None.

Fixpoint digits (acc : Z) (s : string) : option Z :=
  match s with
  | EmptyString => Some acc
  | String c s' =>
      match digit c with
      | Some d => digits (10 * acc + d) s'
      | None => None
      end
  end.

Definition NumberDecimal (s : string) : option Z :=
  match trimAscii s with
  | EmptyString => Some 0
  | String "-" (String c r) => Z.opp <$> digits 0 (String c r)
  | String "+" (String c r) => digits 0 (String c r)
  | r => digits 0 r
  end.

Definition decimalBuiltins : Builtins :=
  {| trim := trimAscii; Number := NumberDecimal |}.

(** ** Properties of an adjacency relation (design document, section 3) *)

Definition symmetric (adj : gmap Z (list Z)) : Prop :=
  ∀ a b la, adj !! a = Some la → b ∈ la →
    ∃ lb, adj !! b = Some lb ∧ a ∈ lb.

Definition duplicateFree (adj : gmap Z (list Z)) : Prop :=
  ∀ a la, adj !! a = Some la → NoDup la.

Definition loopFree (adj : gmap Z (list Z)) : Prop :=
  ∀ a la, adj !! a = Some la → a ∉ la.

(** Every neighbor is itself a key. *)
Definition closed (adj : gmap Z (list Z)) : Prop :=
  map_Forall (λ _ nbrs, Forall (λ n, is_Some (adj !! n)) nbrs) adj.

Definition validAdjacency (adj : gmap Z (list Z)) : Prop :=
  closed adj ∧ symmetric adj ∧ duplicateFree adj ∧ loopFree adj.

(** A line as the description of the text format has it: its first two
    comma-separated fields, when both are numbers. *)
Definition linePair `{Builtins} (line : string) : option Edge :=
  match split "," line with
  | f1 :: f2 :: _ =>
      match Number f1, Number f2 with
      | Some s, Some t => Some {| source := s; target := t |}
      | _, _ => None
      end
  | _ => None
  end.

(** The edges a text stands for: the pairs of its well-formed lines, in
    order. *)
Definition accepted `{Builtins} (csvText : string) : list Edge :=
  omap linePair (split "010" (trim csvText)).

(** The neighbor list of a node, empty when the node is unknown
    ([adjacencyList[n] || []]). *)
Definition neighbors (adj : gmap Z (list Z)) (a : Z) : list Z :=
  default [] (adj !! a).


(** The nodes getRecommendations keeps for [n]: those outside
    [currentFriends]. *)
Definition offered (g : Graph) (n : Z) : list Node :=
  filter (λ nd, id nd ≠ parseInt n ∧ id nd ∉ neighbors (adjacencyList g) n)
         (nodes g).

Definition recommend (scores : gmap Z Qc) (nd : Node) : Recommendation :=
  {| node := id nd; score := scores !! id nd |}.

(** [a] ranks at least as high as [b]. *)
Definition outranks (a b : Recommendation) : Prop :=
  match score a, score b with
  | Some x, Some y => (y ≤ x)%Qc
  | _, _ => False
  end.

(** ** The PageRank engine *)

Module Engine.
Local Open Scope Qc_scope.

(** The engine [computePageRank(adjacency, maxIterations, dampingFactor)]
    that the application calls is not part of app.js; this module follows
    section 4.1 of the design document, over exact rationals. *)

(** Modelled from the spec: the convergence tolerance of the missing
    engine, at the recommended default 1e-6. *)
Definition tolerance : Qc := Q2Qc (1 # 1000000).

Definition ofNat (n : nat) : Qc := Qc_of_Z (Z.of_nat n).

Definition sum (l : list Qc) : Qc := foldr Qcplus 0 l.

Definition scoreOf (s : gmap Z Qc) (u : Z) : Qc := default 0 (s !! u).

(** Sum of the scores of a ScoreMap. *)
Definition total (s : gmap Z Qc) : Qc := sum ((map_to_list s).*2).

(** The nodes of an adjacency relation, and the score [s] gives them
    altogether. *)
Definition keys (adj : gmap Z (list Z)) : list Z := (map_to_list adj).*1.

Definition mass (adj : gmap Z (list Z)) (s : gmap Z Qc) : Qc :=
  sum (scoreOf s <$> keys adj).

(** A score map over the nodes of [adj] that is a probability
    distribution. *)
Definition distribution (adj : gmap Z (list Z)) (s : gmap Z Qc) : Prop :=
  dom s = dom adj ∧ (∀ u, 0 ≤ scoreOf s u) ∧ mass adj s = 1.

(** What [u] sends to [v]: [oldScore[u] / degree(u)] when [v] is a
    neighbor of [u]. *)
Definition share (old : gmap Z Qc) (v : Z) (entry : Z * list Z) : Qc :=
  if bool_decide (v ∈ entry.2)
  then scoreOf old entry.1 / ofNat (length entry.2)
  else 0.

Definition inflow (adj : gmap Z (list Z)) (old : gmap Z Qc) (v : Z) : Qc :=
  sum (share old v <$> map_to_list adj).

Definition danglingShare (old : gmap Z Qc) (entry : Z * list Z) : Qc :=
  match entry.2 with
  | [] => scoreOf old entry.1
  | _ :: _ => 0
  end.

Definition danglingMass (adj : gmap Z (list Z)) (old : gmap Z Qc) : Qc :=
  sum (danglingShare old <$> map_to_list adj).

(** Modelled from the spec: step 3a of the missing engine,
    [(1 - d)/N + d * sum of oldScore[u]/degree(u) over the u that have v
    as a neighbor], with the mass of dangling nodes spread evenly over
    all nodes (the variant under which the single-node graph scores 1, as
    section 8 requires). *)
Definition newScore (adj : gmap Z (list Z)) (d : Qc) (old : gmap Z Qc) (v : Z) : Qc :=
  (1 - d) / ofNat (size adj)
  + d * inflow adj old v
  + d * (danglingMass adj old / ofNat (size adj)).

(** Modelled from the spec: one iteration of the missing engine; every
    new score is computed from the old map. *)
Definition iterate (adj : gmap Z (list Z)) (d : Qc) (old : gmap Z Qc) : gmap Z Qc :=
  map_imap (λ v _, Some (newScore adj d old v)) adj.

Definition totalChange (adj : gmap Z (list Z)) (old new : gmap Z Qc) : Qc :=
  sum ((λ entry : Z * list Z,
          Qcabs (scoreOf new entry.1 - scoreOf old entry.1)) <$> map_to_list adj).

(** Modelled from the spec: step 3 of the missing engine, at most [n]
    iterations, stopping after the first one that changes the scores by
    less than the tolerance. *)
Fixpoint iterations (adj : gmap Z (list Z)) (d : Qc) (n : nat) (old : gmap Z Qc)
    : gmap Z Qc :=
  match n with
  | O => old
  | S n' =>
      let new := iterate adj d old in
      if bool_decide (totalChange adj old new < tolerance) then new
      else iterations adj d n' new
  end.

Definition initial (adj : gmap Z (list Z)) : gmap Z Qc :=
  (λ _, 1 / ofNat (size adj)) <$> adj.

(** Modelled from the spec: the failure conditions of the missing
    engine. *)
Definition invalid (adj : gmap Z (list Z)) (maxIterations : Z) (d : Qc) : bool :=
  bool_decide (maxIterations ≤ 0)%Z
  || negb (bool_decide (0 < d ∧ d < 1))
  || negb (bool_decide (closed adj)).

(** Modelled from the spec: the missing engine [compute]; the
    parameters are checked first, the relation without nodes yields the
    empty map, and every node starts at [1/N]. *)
Definition compute (adj : gmap Z (list Z)) (maxIterations : Z) (dampingFactor : Qc)
    : completion (gmap Z Qc) :=
  if invalid adj maxIterations dampingFactor then Throw InvalidInput
  else if bool_decide (size adj = 0%nat) then Normal ∅
  else Normal (iterations adj dampingFactor (Z.to_nat maxIterations) (initial adj)).

End Engine.

(** ** Auxiliary notions used by the proofs *)

(** [if (!adj[k].includes(x)) adj[k].push(x)], guarded by [adj[k]] being
    there: the step addEdge and connectNodes both take twice. *)
Definition pushUnique (adj : gmap Z (list Z)) (k x : Z) : gmap Z (list Z) :=
  match adj !! k with
  | Some l => if bool_decide (x ∈ l) then adj else <[k := l ++ [x]]> adj
  | None => adj
  end.

(** [e] joins [a] and [b], in either direction. *)
Definition joins (e : Edge) (a b : Z) : Prop :=
  (source e = a ∧ target e = b) ∨ (source e = b ∧ target e = a).

(** The neighbor lists say exactly which of the edges [es] join two
    keys. *)
Definition tracks (adj : gmap Z (list Z)) (es : list Edge) : Prop :=
  ∀ a b, b ∈ neighbors adj a ↔
    is_Some (adj !! a) ∧ is_Some (adj !! b) ∧ ∃ e, e ∈ es ∧ joins e a b.

(** The graph after a run of connectNodes calls. *)
Definition connectAll (g : Graph) (calls : list (Z * Z)) : Graph :=
  foldl (λ g c, (connectNodes_graph c.1 c.2 g).1) g calls.

(** The flag is up exactly while one engine invocation is awaited. *)
Definition inStep (w : World) : Prop :=
  (isComputing (app w) = true ∧ length (pending w) = 1%nat)
  ∨ (isComputing (app w) = false ∧ pending w = []).

(** ** Sample data *)

(** getDefaultGraphData: the text used when the data file cannot be
    fetched. *)
Definition getDefaultGraphData : string :=
  "1,2
1,3
2,3
2,4
2,5
2,6
2,7
3,4
3,8
3,9
3,10
4,6
5,6
5,7
6,7
8,9
8,10
8,11
8,12
9,10
9,12
9,13
10,11
10,13
11,12
11,13
12,13
12,14
12,15
13,14
13,15
14,15
14,16
15,16
16,17
16,18
17,18
18,19
19,20
19,21
20,21
21,22
22,23
22,24
23,24
24,25
25,26
25,27
26,27
27,28
27,29
27,30
28,29
28,30
29,30
30,31
31,32
31,33
32,33
33,34".

Definition twoLines : string := String.app "1,2" (String "010" "2,3").

Definition sampleGraph : Graph := @parseCSVToGraph decimalBuiltins twoLines.

Definition sampleScores : gmap Z Qc :=
  list_to_map [(1, Q2Qc (1 # 4)); (2, Q2Qc (1 # 2)); (3, Q2Qc (1 # 4))].

Definition sampleApp : PageRankApp :=
  with_scores (Some sampleScores) (with_graph (Some sampleGraph) newApp).

Definition sampleWorld : World :=
  with_app (with_graph (Some sampleGraph) newApp) newWorld.

(** An adjacency list whose only neighbor entry names no node: the
    engine rejects it. *)
Definition brokenGraph : Graph :=
  {| nodes := [ {| id := 1 |} ]; edges := [];
     adjacencyList := {[ 1 := [99] ]} |}.

Definition brokenWorld : World :=
  with_app (with_scores (Some sampleScores)
              (with_graph (Some brokenGraph) newApp)) newWorld.

(** ** The fallback graph and the loading of data *)

(** [adjacencyList[k].push(x)] without a guard: it throws when [k] is not
    a key. *)
Definition pushTo (adj : gmap Z (list Z)) (k x : Z) : completion (gmap Z (list Z)) :=
  match adj !! k with
  | Some l => Normal (<[k := l ++ [x]]> adj)
  | None => Throw TypeError
  end.

(** One turn of [edges.forEach] of createDefaultGraph. *)
Definition pushEdge (r : completion (gmap Z (list Z))) (edge : Edge)
    : completion (gmap Z (list Z)) :=
  match r with
  | Throw e => Throw e
  | Normal adj =>
      match pushTo adj (source edge) (target edge) with
      | Throw e => Throw e
      | Normal adj => pushTo adj (target edge) (source edge)
      end
  end.

Definition createDefaultGraph : completion Graph :=
  let nodes :=
    [ {| id := 1 |}; {| id := 2 |}; {| id := 3 |}; {| id := 4 |}; {| id := 5 |};
      {| id := 6 |}; {| id := 7 |}; {| id := 8 |}; {| id := 9 |}; {| id := 10 |} ] in
  let edges :=
    [ {| source := 1; target := 2 |}; {| source := 1; target := 3 |};
      {| source := 2; target := 3 |}; {| source := 2; target := 4 |};
      {| source := 3; target := 4 |}; {| source := 4; target := 5 |};
      {| source := 5; target := 6 |}; {| source := 6; target := 7 |};
      {| source := 7; target := 8 |}; {| source := 8; target := 9 |};
      {| source := 9; target := 10 |}; {| source := 1; target := 10 |} ] in
  let adjacencyList := foldl (λ adj nd, <[id nd := []]> adj) ∅ nodes in
  match foldl pushEdge (Normal adjacencyList) edges with
  | Normal adjacencyList =>
      Normal {| nodes := nodes; edges := edges; adjacencyList := adjacencyList |}
  | Throw e => Throw e
  end.

(** loadDefaultData from the point where the text is known: [fetched] is
    the body of the response, or [None] when [fetch] or [text()] threw.
    The renderer is outside the application and is taken not to throw;
    the completion returned is that of the whole method. *)
Definition loadDefaultData `{Builtins} (fetched : option string) (w : World)
    : World * completion unit :=
  let csvText :=
    match fetched with
    | Some text => text
    | None => getDefaultGraphData
    end in
  let a := with_graph (Some (parseCSVToGraph csvText)) (app w) in
  match updateTable a with
  | Normal _ => (with_app a w, Normal ())
  | Throw _ =>
      match createDefaultGraph with
      | Normal g =>
          let a := with_graph (Some g) a in
          (with_app a w, updateTable a)
      | Throw e => (with_app a w, Throw e)
      end
  end.

(** ** The rows of the table *)

Record RowData : Type := {
  row_id : Z;
  row_pageRank : option Qc;
  row_friendCount : Z;
  row_friends : list Z
}.

(** [this.graph.nodes.map(node => ...)] of updateTable. *)
Definition nodesWithData (a : PageRankApp) (g : Graph) : list RowData :=
  (λ nd,
     let friends := neighbors (adjacencyList g) (id nd) in
     {| row_id := id nd;
        row_pageRank :=
          match pageRankScores a with
          | Some scores => scores !! id nd
          | None => Some 0%Qc
          end;
        row_friendCount := Z.of_nat (length friends);
        row_friends := friends |}) <$> nodes g.

(** [a[this.sortBy]] *)
Definition sortValue (k : SortKey) (r : RowData) : option Qc :=
  match k with
  | ById => Some (Qc_of_Z (row_id r))
  | ByPageRank => row_pageRank r
  | ByFriendCount => Some (Qc_of_Z (row_friendCount r))
  end.

(** The difference of two numbers, [NaN] when one is [undefined]. *)
Definition jsMinus (x y : option Qc) : option Qc :=
  match x, y with
  | Some x, Some y => Some (x - y)%Qc
  | _, _ => None
  end.

(** The comparator of updateTable. *)
Definition byColumn (k : SortKey) (o : SortOrder) (a b : RowData) : comparison :=
  match o with
  | Asc => sgnQc (jsMinus (sortValue k a) (sortValue k b))
  | Desc => sgnQc (jsMinus (sortValue k b) (sortValue k a))
  end.

(** The array [nodesWithData] after its [sort]: the rows in the order
    updateTable goes through them.  Reading [this.graph.nodes] throws
    when no graph is loaded. *)
Definition tableRows (a : PageRankApp) : completion (list RowData) :=
  match graph a with
  | None => Throw TypeError
  | Some g =>
      Normal (Array_sort (byColumn (sortBy a) (sortOrder a)) (nodesWithData a g))
  end.

(** The [forEach] that fills the table: the rows appended and how the
    loop completes.  With scores stored, [toFixed] throws at the first
    row whose score is [undefined], before that row is appended (without
    scores the cell reads N/A and every row has the value 0). *)
Fixpoint appendRows (rows : list RowData) : list RowData * completion unit :=
  match rows with
  | [] => ([], Normal ())
  | r :: rest =>
      match row_pageRank r with
      | None => ([], Throw TypeError)
      | Some _ =>
          let '(appended, c) := appendRows rest in
          (r :: appended, c)
      end
  end.

(** updateTable as it fills the table, emptied first: the rows it
    appends and how it completes. *)
Definition renderedTable (a : PageRankApp) : list RowData * completion unit :=
  match tableRows a with
  | Throw e => ([], Throw e)
  | Normal rows => appendRows rows
  end.

(** The [switch] of sortTable. *)
Definition columnKey (column : string) : SortKey :=
  if String.eqb column "pagerank" then ByPageRank
  else if String.eqb column "friends" then ByFriendCount
  else ById.

(** ** Further notions used by the proofs *)

(** The order getRecommendations puts its entries in: higher score
    first, and of two equal scores the smaller identifier first. *)
Definition rankedBefore (a b : Recommendation) : Prop :=
  match score a, score b with
  | Some x, Some y => (y < x)%Qc ∨ (x = y ∧ node a < node b)
  | _, _ => False
  end.

(** The order of the rows under a sort key and a direction. *)
Definition rowOrder (k : SortKey) (o : SortOrder) (a b : RowData) : Prop :=
  match sortValue k a, sortValue k b with
  | Some x, Some y =>
      match o with
      | Asc => (x ≤ y)%Qc
      | Desc => (y ≤ x)%Qc
      end
  | _, _ => False
  end.

(** The button shows whether a computation is under way. *)
Definition buttonInStep (w : World) : Prop :=
  computeBtn w = if isComputing (app w) then busyBtn else idleBtn.

(** Four nodes in two pairs, all with the same score. *)
Definition tieGraph : Graph :=
  @parseCSVToGraph decimalBuiltins (String.app "1,2" (String "010" "3,4")).

Definition tieScores : gmap Z Qc :=
  list_to_map [(1, Q2Qc (1 # 4)); (2, Q2Qc (1 # 4));
               (3, Q2Qc (1 # 4)); (4, Q2Qc (1 # 4))].

Definition tieApp : PageRankApp :=
  with_scores (Some tieScores) (with_graph (Some tieGraph) newApp).

(** Scores for node 1 only. *)
Definition partialScores : gmap Z Qc := {[ 1 := Q2Qc (1 # 2) ]}.



(** Nodes 1 to 4 around node 5, and scores that leave node 3 out. *)
Definition gapGraph : Graph :=
  @parseCSVToGraph decimalBuiltins
    (String.app "1,5" (String "010" (String.app "2,5" (String "010"
       (String.app "3,5" (String "010" "4,5")))))).

Definition gapApp : PageRankApp :=
  with_scores (Some (list_to_map [(1, Q2Qc (2 # 10)); (2, Q2Qc (1 # 10));
                                  (4, Q2Qc (3 # 10)); (5, Q2Qc (4 # 10))]))
              (with_graph (Some gapGraph) newApp).

(** A page that holds scores for node 1 only and no graph yet. *)
Definition staleWorld : World :=
  with_app (with_scores (Some partialScores) newApp) newWorld.

(* ================================================================== *)
(** * Part II. Theorems                                                *)
(* ================================================================== *)

(** ** Sorting *)

Section Sorting.
Context {A : Type} (cmp : A → A → comparison).

Lemma sort_insert_perm (x : A) (l : list A) : sort_insert cmp x l ≡ₚ x :: l.
Proof.
  induction l as [|y l IH]; simpl; [done|].
  destruct (cmp x y); try done.
  rewrite IH. apply Permutation_swap.
Qed.

Lemma Array_sort_perm (l : list A) : Array_sort cmp l ≡ₚ l.
Proof.
  induction l as [|x l IH]; simpl; [done|].
  rewrite sort_insert_perm. by f_equiv.
Qed.

(** The comparator decides an order [R] on the elements that satisfy
    [P]: not positive means "before", positive means "after". *)
Context (R : relation A) (P : A → Prop).
Hypothesis cmp_le : ∀ x y, P x → P y → cmp x y ≠ Gt → R x y.
Hypothesis cmp_gt : ∀ x y, P x → P y → cmp x y = Gt → R y x.

Lemma sort_insert_sorted (x : A) (l : list A) :
  P x → Forall P l → Sorted R l → Sorted R (sort_insert cmp x l).
Proof.
  intros Hx Hl Hs. induction l as [|y l IH]; simpl.
  - repeat constructor.
  - apply Forall_cons in Hl as [Hy Hl].
    apply Sorted_inv in Hs as [Hs Hhd].
    destruct (cmp x y) eqn:E.
    + constructor; [by constructor|]. constructor.
      apply cmp_le; [done..|]. by rewrite E.
    + constructor; [by constructor|]. constructor.
      apply cmp_le; [done..|]. by rewrite E.
    + constructor; [by apply IH|].
      destruct l as [|z l]; simpl.
      * constructor. by apply cmp_gt.
      * destruct (cmp x z); constructor;
          solve [by apply cmp_gt | by inversion Hhd].
Qed.

Lemma Array_sort_sorted (l : list A) :
  Forall P l → Sorted R (Array_sort cmp l).
Proof.
  induction l as [|x l IH]; simpl; intros Hl.
  - constructor.
  - apply Forall_cons in Hl as [Hx Hl].
    apply sort_insert_sorted; [done| |by apply IH].
    by rewrite (Array_sort_perm l).
Qed.
End Sorting.

Lemma byId_le (x y : Z) : byId x y ≠ Gt → x ≤ y.
Proof. unfold byId, sgnZ. rewrite Z.compare_gt_iff. lia. Qed.

Lemma byId_gt (x y : Z) : byId x y = Gt → y ≤ x.
Proof. unfold byId, sgnZ. rewrite Z.compare_gt_iff. lia. Qed.

Lemma sort_byId_sorted (l : list Z) : StronglySorted Z.le (Array_sort byId l).
Proof.
  apply Sorted_StronglySorted; [intros ???; lia|].
  apply (Array_sort_sorted byId Z.le (λ _, True)).
  - intros x y _ _. apply byId_le.
  - intros x y _ _. apply byId_gt.
  - by apply Forall_true.
Qed.

Lemma StronglySorted_le_lt (l : list Z) :
  NoDup l → StronglySorted Z.le l → StronglySorted Z.lt l.
Proof.
  induction 2 as [|x l Hs IH Hall]; [constructor|].
  apply NoDup_cons in H as [Hx Hl].
  constructor; [by apply IH|].
  apply Forall_forall. intros y Hy.
  rewrite Forall_forall in Hall. specialize (Hall y Hy).
  assert (x ≠ y) by (intros ->; done). lia.
Qed.

Lemma sort_byId_strict (l : list Z) :
  NoDup l → StronglySorted Z.lt (Array_sort byId l).
Proof.
  intros Hl. apply StronglySorted_le_lt; [|apply sort_byId_sorted].
  by rewrite Array_sort_perm.
Qed.

(** ** Sets in insertion order *)

Lemma elem_of_Set_add (x y : Z) (s : list Z) :
  y ∈ Set_add x s ↔ y = x ∨ y ∈ s.
Proof.
  unfold Set_add, Set_has. case_bool_decide.
  - split; [by right|]. by intros [->|].
  - rewrite elem_of_app, list_elem_of_singleton. tauto.
Qed.

Lemma NoDup_Set_add (x : Z) (s : list Z) : NoDup s → NoDup (Set_add x s).
Proof.
  intros Hs. unfold Set_add, Set_has. case_bool_decide; [done|].
  apply NoDup_app. split_and!; [done| |apply NoDup_singleton].
  intros y Hy ->%list_elem_of_singleton. done.
Qed.

Lemma elem_of_Set_new_from (l s : list Z) (y : Z) :
  y ∈ foldl (λ s x, Set_add x s) s l ↔ y ∈ s ∨ y ∈ l.
Proof.
  revert s. induction l as [|x l IH]; intros s; simpl.
  - rewrite elem_of_nil. tauto.
  - rewrite IH, elem_of_Set_add, elem_of_cons. tauto.
Qed.

Lemma elem_of_Set_new (l : list Z) (y : Z) : y ∈ Set_new l ↔ y ∈ l.
Proof.
  unfold Set_new. rewrite elem_of_Set_new_from, elem_of_nil. tauto.
Qed.

(** ** Growing the adjacency list *)

Lemma pushUnique_is_Some (adj : gmap Z (list Z)) (k x a : Z) :
  is_Some (pushUnique adj k x !! a) ↔ is_Some (adj !! a).
Proof.
  unfold pushUnique. destruct (adj !! k) as [l|] eqn:Hk; [|done].
  case_bool_decide; [done|].
  destruct (decide (k = a)) as [->|Hne].
  - rewrite lookup_insert_eq, Hk. split; eauto.
  - by rewrite lookup_insert_ne.
Qed.

Lemma elem_of_neighbors_pushUnique (adj : gmap Z (list Z)) (k x a b : Z) :
  b ∈ neighbors (pushUnique adj k x) a ↔
  b ∈ neighbors adj a ∨ (a = k ∧ b = x ∧ is_Some (adj !! k)).
Proof.
  unfold pushUnique, neighbors.
  destruct (adj !! k) as [l|] eqn:Hk.
  - case_bool_decide as Hx.
    + split; [by left|]. intros [?|(-> & -> & _)]; [done|]. by rewrite Hk.
    + destruct (decide (k = a)) as [->|Hne].
      * rewrite lookup_insert_eq, Hk. simpl.
        rewrite elem_of_app, list_elem_of_singleton.
        split.
        -- intros [?|Hb]; [by left|]. subst b. right. eauto.
        -- intros [?|(_ & Hb & _)]; [by left|]. by right.
      * rewrite lookup_insert_ne by done.
        split; [by left|]. by intros [?|(-> & _)].
  - split; [by left|]. intros [?|(_ & _ & [? ?])]; done.
Qed.

Lemma pushUnique_duplicateFree (adj : gmap Z (list Z)) (k x : Z) :
  duplicateFree adj → duplicateFree (pushUnique adj k x).
Proof.
  intros Hd a la. unfold pushUnique.
  destruct (adj !! k) as [l|] eqn:Hk; [|apply Hd].
  case_bool_decide as Hx; [apply Hd|].
  destruct (decide (k = a)) as [->|Hne].
  - rewrite lookup_insert_eq. intros [= <-].
    apply NoDup_app. split_and!; [by eapply Hd| |apply NoDup_singleton].
    intros y Hy ->%list_elem_of_singleton. done.
  - rewrite lookup_insert_ne by done. apply Hd.
Qed.

Lemma addEdge_pushUnique (adj : gmap Z (list Z)) (e : Edge) :
  addEdge adj e =
  pushUnique (pushUnique adj (source e) (target e)) (target e) (source e).
Proof. reflexivity. Qed.

Lemma addEdge_is_Some (adj : gmap Z (list Z)) (e : Edge) (a : Z) :
  is_Some (addEdge adj e !! a) ↔ is_Some (adj !! a).
Proof. by rewrite addEdge_pushUnique, !pushUnique_is_Some. Qed.

Lemma addEdge_duplicateFree (adj : gmap Z (list Z)) (e : Edge) :
  duplicateFree adj → duplicateFree (addEdge adj e).
Proof.
  intros. rewrite addEdge_pushUnique. by do 2 apply pushUnique_duplicateFree.
Qed.

Lemma addEdge_tracks (adj : gmap Z (list Z)) (es : list Edge) (e : Edge) :
  tracks adj es →
  is_Some (adj !! source e) → is_Some (adj !! target e) →
  tracks (addEdge adj e) (es ++ [e]).
Proof.
  intros Ht Hs Htg a b.
  rewrite !addEdge_is_Some, addEdge_pushUnique.
  rewrite !elem_of_neighbors_pushUnique, pushUnique_is_Some, (Ht a b).
  unfold joins. setoid_rewrite elem_of_app.
  setoid_rewrite list_elem_of_singleton.
  split.
  - intros [[(Ha & Hb & e' & He' & Hj)|(-> & -> & _)]|(-> & -> & _)].
    + split_and!; [done..|]. exists e'. tauto.
    + split_and!; [done..|]. exists e. tauto.
    + split_and!; [done..|]. exists e. tauto.
  - intros (Ha & Hb & e' & [He'| ->] & Hj).
    + left. left. split_and!; [done..|]. by exists e'.
    + destruct Hj as [[<- <-]|[<- <-]]; [left; right|right]; tauto.
Qed.

Lemma tracks_symmetric (adj : gmap Z (list Z)) (es : list Edge) :
  tracks adj es → symmetric adj.
Proof.
  intros Ht a b la Ha Hb.
  assert (b ∈ neighbors adj a) as Hab by (unfold neighbors; by rewrite Ha).
  apply Ht in Hab as (Hka & Hkb & e & He & Hj).
  assert (a ∈ neighbors adj b) as Hba.
  { apply Ht. split_and!; [done..|]. exists e. unfold joins in *. tauto. }
  destruct Hkb as [lb Hlb]. exists lb. split; [done|].
  unfold neighbors in Hba. by rewrite Hlb in Hba.
Qed.

Lemma tracks_closed (adj : gmap Z (list Z)) (es : list Edge) :
  tracks adj es → closed adj.
Proof.
  intros Ht a la Ha. apply Forall_forall. intros b Hb.
  assert (b ∈ neighbors adj a) as Hab by (unfold neighbors; by rewrite Ha).
  by apply Ht in Hab as (_ & Hkb & _).
Qed.

Lemma tracks_loopFree (adj : gmap Z (list Z)) (es : list Edge) :
  tracks adj es →
  Forall (λ e, source e = target e → is_Some (adj !! source e)) es →
  loopFree adj ↔ Forall (λ e, source e ≠ target e) es.
Proof.
  intros Ht Hk. rewrite Forall_forall in Hk. split.
  - intros Hl. apply Forall_forall. intros e He Heq.
    destruct (Hk e He Heq) as [la Hla].
    apply (Hl _ _ Hla).
    assert (source e ∈ neighbors adj (source e)) as Hn.
    { apply Ht. split_and!; eauto. exists e. split; [done|]. by left. }
    unfold neighbors in Hn. by rewrite Hla in Hn.
  - intros Hne a la Hla Ha. rewrite Forall_forall in Hne.
    assert (a ∈ neighbors adj a) as Hn by (unfold neighbors; by rewrite Hla).
    apply Ht in Hn as (_ & _ & e & He & [[Hs Htg]|[Hs Htg]]);
      apply (Hne e He); congruence.
Qed.

(** ** parseCSVToGraph *)

Section Parse.
Context `{Builtins}.

Lemma parseLine_linePair (es : list Edge) (ns : list Z) (line : string) :
  parseLine (es, ns) line =
  match linePair line with
  | Some e => (es ++ [e], Set_add (target e) (Set_add (source e) ns))
  | None => (es, ns)
  end.
Proof.
  unfold parseLine, linePair.
  destruct (split "," line) as [|f1 [|f2 fs]]; simpl; [done| |].
  - by destruct (Number f1).
  - by destruct (Number f1), (Number f2).
Qed.

Local Arguments parseLine : simpl never.
Local Arguments linePair : simpl never.

Lemma foldl_parseLine (lines : list string) (es : list Edge) (ns : list Z) :
  (foldl parseLine (es, ns) lines).1 = es ++ omap linePair lines
  ∧ (NoDup ns → NoDup (foldl parseLine (es, ns) lines).2)
  ∧ ∀ x, x ∈ (foldl parseLine (es, ns) lines).2 ↔
      x ∈ ns ∨ ∃ e, e ∈ omap linePair lines ∧ (x = source e ∨ x = target e).
Proof.
  revert es ns. induction lines as [|line lines IH]; intros es ns; simpl.
  - rewrite app_nil_r. split_and!; [done..|].
    intros x. split; [by left|]. intros [?|(e & He & _)]; [done|].
    by apply elem_of_nil in He.
  - rewrite parseLine_linePair.
    destruct (linePair line) as [e|] eqn:He; [|apply IH].
    destruct (IH (es ++ [e]) (Set_add (target e) (Set_add (source e) ns)))
      as (IH1 & IH2 & IH3).
    split_and!.
    + by rewrite IH1, <-app_assoc.
    + intros Hns. by apply IH2, NoDup_Set_add, NoDup_Set_add.
    + intros x. rewrite IH3, !elem_of_Set_add. split.
      * intros [[->|[->|?]]|(e' & He' & Hx)].
        -- right. exists e. split; [left|by right].
        -- right. exists e. split; [left|by left].
        -- by left.
        -- right. exists e'. split; [by right|done].
      * intros [?|(e' & [->|He']%elem_of_cons & Hx)].
        -- left. tauto.
        -- left. tauto.
        -- right. by exists e'.
Qed.

Lemma emptyLists_lookup (l : list Z) (m : gmap Z (list Z)) (k : Z) :
  foldl (λ adj node, <[node := []]> adj) m l !! k =
  if bool_decide (k ∈ l) then Some [] else m !! k.
Proof.
  revert m. induction l as [|x l IH]; intros m; simpl; [done|].
  rewrite IH. repeat case_bool_decide; try done.
  - exfalso. set_solver.
  - apply elem_of_cons in H1 as [->|?]; [|done].
    by rewrite lookup_insert_eq.
  - rewrite lookup_insert_ne; [done|]. set_solver.
Qed.

Lemma foldl_addEdge_inv (rest done_ : list Edge) (adj : gmap Z (list Z)) :
  tracks adj done_ → duplicateFree adj →
  Forall (λ e, is_Some (adj !! source e) ∧ is_Some (adj !! target e)) rest →
  tracks (foldl addEdge adj rest) (done_ ++ rest)
  ∧ duplicateFree (foldl addEdge adj rest)
  ∧ ∀ a, is_Some (foldl addEdge adj rest !! a) ↔ is_Some (adj !! a).
Proof.
  revert done_ adj.
  induction rest as [|e rest IH]; intros done_ adj Ht Hd Hk; simpl.
  - by rewrite app_nil_r.
  - apply Forall_cons in Hk as [[Hs Htg] Hk].
    destruct (IH (done_ ++ [e]) (addEdge adj e)) as (IH1 & IH2 & IH3).
    + by apply addEdge_tracks.
    + by apply addEdge_duplicateFree.
    + eapply Forall_impl; [exact Hk|]. intros e'. simpl.
      by rewrite !addEdge_is_Some.
    + rewrite <-app_assoc in IH1. split_and!; [done..|].
      intros a. by rewrite IH3, addEdge_is_Some.
Qed.

(** The shape of the graph parseCSVToGraph returns. *)
Lemma parseCSVToGraph_shape (csvText : string) :
  ∃ ns : list Z,
    NoDup ns
    ∧ (∀ x, x ∈ ns ↔
         ∃ e, e ∈ accepted csvText ∧ (x = source e ∨ x = target e))
    ∧ id <$> nodes (parseCSVToGraph csvText) = Array_sort byId ns
    ∧ edges (parseCSVToGraph csvText) = accepted csvText
    ∧ tracks (adjacencyList (parseCSVToGraph csvText)) (accepted csvText)
    ∧ duplicateFree (adjacencyList (parseCSVToGraph csvText))
    ∧ ∀ a, is_Some (adjacencyList (parseCSVToGraph csvText) !! a) ↔ a ∈ ns.
Proof.
  unfold parseCSVToGraph, accepted.
  destruct (foldl_parseLine (split "010" (trim csvText)) [] [])
    as (He & Hnd & Hns).
  destruct (foldl parseLine ([], []) (split "010" (trim csvText)))
    as [es ns] eqn:Hfold.
  simpl in *. subst es. exists ns.
  set (es := omap linePair (split "010" (trim csvText))) in *.
  set (adj0 := foldl (λ adj node, <[node := []]> adj) ∅ (Array_sort byId ns)).
  assert (∀ a, is_Some (adj0 !! a) ↔ a ∈ ns) as Hkeys.
  { intros a. unfold adj0. rewrite emptyLists_lookup.
    case_bool_decide as Ha; rewrite Array_sort_perm in Ha.
    - split; eauto.
    - rewrite lookup_empty. split; [by intros [? ?]|done]. }
  assert (∀ a, neighbors adj0 a = []) as Hn0.
  { intros a. unfold neighbors, adj0. rewrite emptyLists_lookup.
    by case_bool_decide. }
  destruct (foldl_addEdge_inv es [] adj0) as (Ht & Hd & Hk).
  - intros a b. rewrite Hn0. split; [by intros ?%elem_of_nil|].
    by intros (_ & _ & e & ?%elem_of_nil & _).
  - intros a la Hla.
    assert (neighbors adj0 a = la) as <-
      by (unfold neighbors; by rewrite Hla).
    rewrite Hn0. constructor.
  - apply Forall_forall. intros e He. rewrite !Hkeys, !Hns.
    split; right; exists e; tauto.
  - split_and!; try done.
    + apply Hnd. constructor.
    + intros x. rewrite Hns, elem_of_nil. tauto.
    + rewrite <-list_fmap_compose. apply list_fmap_id.
    + intros a. by rewrite Hk.
Qed.
End Parse.

(** ** connectNodes on the graph *)

Lemma connectNodes_graph_adjacency (s t : Z) (g : Graph) :
  adjacencyList (connectNodes_graph s t g).1 =
  match adjacencyList g !! s with
  | Some _ => addEdge (adjacencyList g) {| source := s; target := t |}
  | None => adjacencyList g
  end.
Proof.
  unfold connectNodes_graph, addEdge. simpl.
  destruct (adjacencyList g !! s) as [ls|] eqn:Hs; [|done].
  by destruct (_ !! t).
Qed.

Lemma connectNodes_graph_edges (s t : Z) (g : Graph) :
  edges (connectNodes_graph s t g).1 =
  edges g ++ [ {| source := s; target := t |} ].
Proof.
  unfold connectNodes_graph. simpl.
  destruct (adjacencyList g !! s) as [ls|]; [|done].
  by destruct (_ !! t).
Qed.

Lemma connectNodes_graph_is_Some (s t : Z) (g : Graph) (a : Z) :
  is_Some (adjacencyList (connectNodes_graph s t g).1 !! a) ↔
  is_Some (adjacencyList g !! a).
Proof.
  rewrite connectNodes_graph_adjacency.
  destruct (adjacencyList g !! s); [|done]. apply addEdge_is_Some.
Qed.

Lemma connectNodes_graph_inv (s t : Z) (g : Graph) :
  tracks (adjacencyList g) (edges g) →
  duplicateFree (adjacencyList g) →
  is_Some (adjacencyList g !! t) →
  tracks (adjacencyList (connectNodes_graph s t g).1)
         (edges (connectNodes_graph s t g).1)
  ∧ duplicateFree (adjacencyList (connectNodes_graph s t g).1).
Proof.
  intros Ht Hd Hk.
  rewrite connectNodes_graph_edges, connectNodes_graph_adjacency.
  destruct (adjacencyList g !! s) as [ls|] eqn:Hs.
  - split; [|by apply addEdge_duplicateFree].
    apply addEdge_tracks; simpl; [done| |done]. by rewrite Hs.
  - split; [|done]. intros a b. rewrite (Ht a b).
    setoid_rewrite elem_of_app. setoid_rewrite list_elem_of_singleton.
    split.
    + intros (Ha & Hb & e & He & Hj). split_and!; [done..|].
      exists e. tauto.
    + intros (Ha & Hb & e & [He| ->] & Hj).
      * split_and!; [done..|]. by exists e.
      * exfalso. destruct Hj as [[<- _]|[<- _]]; simpl in *.
        -- rewrite Hs in Ha. by destruct Ha.
        -- rewrite Hs in Hb. by destruct Hb.
Qed.

Lemma connectAll_inv (calls : list (Z * Z)) (g : Graph) :
  tracks (adjacencyList g) (edges g) →
  duplicateFree (adjacencyList g) →
  Forall (λ c, is_Some (adjacencyList g !! c.2)) calls →
  tracks (adjacencyList (connectAll g calls)) (edges (connectAll g calls))
  ∧ duplicateFree (adjacencyList (connectAll g calls))
  ∧ (∀ a, is_Some (adjacencyList (connectAll g calls) !! a) ↔
          is_Some (adjacencyList g !! a))
  ∧ edges (connectAll g calls) =
    edges g ++ ((λ c, {| source := c.1; target := c.2 |}) <$> calls).
Proof.
  revert g. induction calls as [|[s t] calls IH]; intros g Ht Hd Hk.
  - simpl. by rewrite app_nil_r.
  - apply Forall_cons in Hk as [Hk1 Hk]. simpl in Hk1.
    destruct (connectNodes_graph_inv s t g Ht Hd Hk1) as [Ht' Hd'].
    destruct (IH (connectNodes_graph s t g).1 Ht' Hd') as (I1 & I2 & I3 & I4).
    { eapply Forall_impl; [exact Hk|]. intros c. simpl.
      by rewrite connectNodes_graph_is_Some. }
    unfold connectAll in *. simpl. split_and!; [done..| |].
    + intros a. by rewrite I3, connectNodes_graph_is_Some.
    + by rewrite I4, connectNodes_graph_edges, <-app_assoc.
Qed.

(** ** Claims about graph construction *)

(** C9. For every input text, the node list of the graph returned by
    parseCSVToGraph is in strictly ascending order of identifier, holds
    no identifier twice, and names exactly the keys of the returned
    adjacency list. *)
Theorem parseCSVToGraph_nodes_sorted `{Builtins} (csvText : string) :
  StronglySorted Z.lt (id <$> nodes (parseCSVToGraph csvText))
  ∧ NoDup (id <$> nodes (parseCSVToGraph csvText))
  ∧ dom (adjacencyList (parseCSVToGraph csvText))
    = list_to_set (id <$> nodes (parseCSVToGraph csvText)).
Proof.
  destruct (parseCSVToGraph_shape csvText)
    as (ns & Hnd & _ & Hids & _ & _ & _ & Hkeys).
  rewrite Hids. split_and!.
  - by apply sort_byId_strict.
  - by rewrite Array_sort_perm.
  - apply set_eq. intros a.
    by rewrite elem_of_dom, Hkeys, elem_of_list_to_set, Array_sort_perm.
Qed.

(** C3. For every input text, parseCSVToGraph reads one source,target
    pair per line: the edges it returns are the pairs of the lines whose
    first two comma-separated fields are both numbers, in order; both
    nodes of every such line are in the returned node list and are keys
    of the returned adjacency list; and every other line (a blank one
    among them) is skipped, adding no edge, no node and no key: the node
    list and the keys hold the nodes of the returned edges and nothing
    else. *)
Theorem parseCSVToGraph_lines `{Builtins} (csvText : string) :
  edges (parseCSVToGraph csvText)
    = omap linePair (split "010" (trim csvText))
  ∧ linePair EmptyString = None
  ∧ (∀ line e,
      line ∈ split "010" (trim csvText) → linePair line = Some e →
      e ∈ edges (parseCSVToGraph csvText)
      ∧ source e ∈ id <$> nodes (parseCSVToGraph csvText)
      ∧ target e ∈ id <$> nodes (parseCSVToGraph csvText)
      ∧ is_Some (adjacencyList (parseCSVToGraph csvText) !! source e)
      ∧ is_Some (adjacencyList (parseCSVToGraph csvText) !! target e))
  ∧ (∀ x, x ∈ id <$> nodes (parseCSVToGraph csvText)
          ↔ ∃ e, e ∈ edges (parseCSVToGraph csvText)
                 ∧ (x = source e ∨ x = target e))
  ∧ (∀ x, is_Some (adjacencyList (parseCSVToGraph csvText) !! x)
          ↔ ∃ e, e ∈ edges (parseCSVToGraph csvText)
                 ∧ (x = source e ∨ x = target e)).
Proof.
  destruct (parseCSVToGraph_shape csvText)
    as (ns & _ & Hns & Hids & Hedges & _ & _ & Hkeys).
  split_and!; [done..| | |];
    [|intros x; by rewrite Hids, Array_sort_perm, Hns, Hedges
     |intros x; by rewrite Hkeys, Hns, Hedges].
  intros line e Hline He.
  assert (e ∈ accepted csvText) as Hacc.
  { unfold accepted. apply list_elem_of_omap. by exists line. }
  rewrite Hedges, Hids, !Array_sort_perm, !Hkeys, !Hns.
  split_and!; [done|exists e..]; tauto.
Qed.

Lemma parseCSVToGraph_lines_witness :
  "2,3"%string ∈ split "010" (trimAscii twoLines)
  ∧ @linePair decimalBuiltins "2,3" = Some {| source := 2; target := 3 |}
  ∧ is_Some (adjacencyList (@parseCSVToGraph decimalBuiltins twoLines) !! 3).
Proof.
  assert ("2,3"%string ∈ split "010" (trimAscii twoLines)) as H1
    by (vm_compute; right; left).
  assert (@linePair decimalBuiltins "2,3" = Some {| source := 2; target := 3 |})
    as H2 by reflexivity.
  split_and!; [done..|].
  apply (proj1 (proj2 (proj2 (@parseCSVToGraph_lines decimalBuiltins twoLines)))
           _ _ H1 H2).
Defined.

(** The default data set: 34 nodes, 60 edges, node 2 with six friends. *)
Example parseCSVToGraph_default_data :
  length (nodes (@parseCSVToGraph decimalBuiltins getDefaultGraphData)) = 34%nat
  ∧ length (edges (@parseCSVToGraph decimalBuiltins getDefaultGraphData)) = 60%nat
  ∧ adjacencyList (@parseCSVToGraph decimalBuiltins getDefaultGraphData) !! 2
    = Some [1; 3; 4; 5; 6; 7].
Proof. by vm_compute. Qed.

(** C2, as stated, fails: the line [1,1] puts node 1 in its own neighbor
    list, and connecting node 1 to an identifier that is not a node
    leaves an entry without its mirror image. *)
Lemma adjacency_invariants_counterexample :
  ¬ loopFree (adjacencyList (@parseCSVToGraph decimalBuiltins "1,1"))
  ∧ ¬ symmetric
        (adjacencyList
           (connectNodes_graph 1 99 (@parseCSVToGraph decimalBuiltins "1,2")).1).
Proof.
  split.
  - intros Hl. apply (Hl 1 [1]); [reflexivity|left].
  - intros Hs. destruct (Hs 1 99 [2; 99]) as (lb & Hlb & _).
    + reflexivity.
    + right; left.
    + vm_compute in Hlb. discriminate.
Qed.

(** C2, amended. The adjacency list parseCSVToGraph returns, and the one
    left by any run of connectNodes calls whose target is a node of the
    graph, is symmetric and has no neighbor list with a repeated entry;
    it is free of self-loops exactly when no recorded edge has its source
    equal to its target. *)
Theorem adjacency_invariants `{Builtins}
    (csvText : string) (calls : list (Z * Z)) :
  Forall (λ c, is_Some (adjacencyList (parseCSVToGraph csvText) !! c.2)) calls →
  symmetric (adjacencyList (connectAll (parseCSVToGraph csvText) calls))
  ∧ duplicateFree (adjacencyList (connectAll (parseCSVToGraph csvText) calls))
  ∧ (loopFree (adjacencyList (connectAll (parseCSVToGraph csvText) calls))
     ↔ Forall (λ e, source e ≠ target e)
              (edges (connectAll (parseCSVToGraph csvText) calls))).
Proof.
  intros Hcalls.
  destruct (parseCSVToGraph_shape csvText)
    as (ns & _ & Hns & _ & Hedges & Ht & Hd & Hkeys).
  rewrite <-Hedges in Ht.
  destruct (connectAll_inv calls _ Ht Hd Hcalls) as (Ht' & Hd' & Hk' & He').
  split_and!; [by eapply tracks_symmetric|done|].
  apply tracks_loopFree; [done|].
  rewrite He', Forall_app, !Forall_forall. split.
  - intros e He _. rewrite Hk', Hkeys, Hns. rewrite Hedges in He.
    exists e. tauto.
  - intros e (c & -> & Hc)%list_elem_of_fmap. simpl. intros ->.
    rewrite Hk'. rewrite Forall_forall in Hcalls. by apply Hcalls.
Qed.

Lemma adjacency_invariants_witness :
  Forall (λ c, is_Some (adjacencyList
                          (@parseCSVToGraph decimalBuiltins twoLines) !! c.2))
         [(1, 3)]
  ∧ symmetric (adjacencyList
       (connectAll (@parseCSVToGraph decimalBuiltins twoLines) [(1, 3)])).
Proof.
  assert (Forall (λ c, is_Some (adjacencyList
                    (@parseCSVToGraph decimalBuiltins twoLines) !! c.2))
                 [(1, 3)]) as Hc.
  { repeat constructor. by exists [2]. }
  split; [done|].
  apply (@adjacency_invariants decimalBuiltins twoLines [(1, 3)] Hc).
Defined.

(** ** Recommendations *)

Lemma sgnQc_Gt (x y : Qc) : sgnQc (Some (x - y)%Qc) = Gt ↔ (y < x)%Qc.
Proof.
  unfold sgnQc, Qccompare. rewrite <-Qgt_alt.
  change (0 < x - y ↔ y < x)%Qc.
  rewrite (Qcplus_lt_mono_r 0 (x - y) y).
  by replace (x - y + y)%Qc with x by ring; rewrite Qcplus_0_l.
Qed.



#[local] Instance outranks_trans : Transitive outranks.
Proof.
  intros a b c. unfold outranks.
  destruct (score a), (score b), (score c); try done.
  intros ??. by etrans.
Qed.


(** The [forEach] of getRecommendations keeps the nodes outside
    [currentFriends], in order. *)
Lemma collect_recommendations (scores : gmap Z Qc) (cf : list Z)
    (l : list Node) (acc : list Recommendation) :
  foldl (λ recs nd,
           if Set_has cf (id nd) then recs
           else recs ++ [ {| node := id nd; score := scores !! id nd |} ])
        acc l
  = acc ++ (recommend scores <$> filter (λ nd, id nd ∉ cf) l).
Proof.
  revert acc. induction l as [|nd l IH]; intros acc; simpl.
  - by rewrite app_nil_r.
  - rewrite IH. unfold Set_has. rewrite filter_cons.
    case_bool_decide; case_decide; try done.
    by rewrite <-app_assoc.
Qed.

Lemma getRecommendations_eq (a : PageRankApp) (g : Graph)
    (scores : gmap Z Qc) (n : Z) :
  graph a = Some g → pageRankScores a = Some scores →
  getRecommendations a n =
  Normal (take 3 (Array_sort byScoreDesc (recommend scores <$> offered g n))).
Proof.
  intros Hg Hs. unfold getRecommendations. rewrite Hg, Hs.
  rewrite collect_recommendations. simpl. do 4 f_equal.
  unfold offered. apply list_filter_iff. intros nd.
  rewrite elem_of_Set_add, elem_of_Set_new. unfold neighbors. tauto.
Qed.



(** C10. While no scores have been computed, getRecommendations returns
    the empty list for every node identifier. *)
Theorem getRecommendations_without_scores (a : PageRankApp) (n : Z) :
  pageRankScores a = None → getRecommendations a n = Normal [].
Proof. intros Hs. unfold getRecommendations. by rewrite Hs. Qed.

Lemma getRecommendations_without_scores_witness :
  pageRankScores newApp = None ∧ getRecommendations newApp 7 = Normal [].
Proof.
  split; [reflexivity|].
  apply (getRecommendations_without_scores newApp 7). reflexivity.
Defined.



Example getRecommendations_sample :
  getRecommendations sampleApp 1
  = Normal [ {| node := 3; score := Some (Q2Qc (1 # 4)) |} ].
Proof. vm_compute. reflexivity. Qed.


(** ** The compute button *)

Lemma computePageRank_begin_inStep (w : World) :
  inStep w → inStep (computePageRank_begin w).1.
Proof.
  unfold computePageRank_begin.
  intros [[Hc Hp]|[Hc Hp]]; rewrite Hc; simpl; [by left|].
  destruct (graph (app w)); simpl; rewrite Hp; [by left|by right].
Qed.

Lemma computePageRank_resume_inStep (o : outcome) (w : World) :
  inStep w → inStep (computePageRank_resume o w).
Proof.
  intros Hw. unfold computePageRank_resume.
  destruct (pending w) as [|adj rest] eqn:Hp; [done|].
  assert (rest = []) as ->.
  { destruct Hw as [[_ Hl]|[_ Hl]]; rewrite Hp in Hl; [|done].
    by destruct rest. }
  destruct o as [scores|]; simpl; [|by right].
  destruct (afterAssign _); by right.
Qed.

Lemma step_inStep (w : World) (ev : event) : inStep w → inStep (step w ev).
Proof.
  intros Hw. destruct ev as [|o|s t| |g|n|c]; simpl.
  - by apply computePageRank_begin_inStep.
  - by apply computePageRank_resume_inStep.
  - unfold connectNodes. destruct (graph (app w)) as [g|]; [|done].
    destruct (connectNodes_graph s t g) as [g' [[]|e]]; [|done].
    by apply computePageRank_begin_inStep.
  - done.
  - done.
  - done.
  - unfold sortTable. by case_bool_decide.
Qed.

Lemma run_snoc (evs : list event) (ev : event) :
  run (evs ++ [ev]) = step (run evs) ev.
Proof. unfold run. by rewrite foldl_app. Qed.

Lemma run_inStep (evs : list event) : inStep (run evs).
Proof.
  induction evs as [|ev evs IH] using rev_ind.
  - by right.
  - rewrite run_snoc. by apply step_inStep.
Qed.

Lemma computePageRank_begin_scores (w : World) :
  pageRankScores (app (computePageRank_begin w).1) = pageRankScores (app w).
Proof.
  unfold computePageRank_begin.
  destruct (isComputing (app w)); [done|]. simpl.
  by destruct (graph (app w)).
Qed.

Lemma computePageRank_resume_Rejected_scores (w : World) :
  pageRankScores (app (computePageRank_resume Rejected w))
  = pageRankScores (app w).
Proof. unfold computePageRank_resume. by destruct (pending w). Qed.

(** C4. If the engine invocation made by computePageRank fails, the
    stored ScoreMap is the one from before the call: it is untouched up
    to the [await], untouched when the awaited invocation is rejected,
    and so untouched by the whole call. *)
Theorem computePageRank_failure_keeps_scores
    (engine : gmap Z (list Z) → Z → Qc → completion (gmap Z Qc))
    (w : World) :
  pageRankScores (app (computePageRank_begin w).1) = pageRankScores (app w)
  ∧ pageRankScores (app (computePageRank_resume Rejected w))
    = pageRankScores (app w)
  ∧ ∀ g e,
      graph (app w) = Some g →
      engine (adjacencyList g) 50 (Q2Qc (85 # 100)) = Throw e →
      pageRankScores (app (computePageRank_run engine w))
      = pageRankScores (app w).
Proof.
  split_and!.
  - apply computePageRank_begin_scores.
  - apply computePageRank_resume_Rejected_scores.
  - intros g e Hg He. unfold computePageRank_run.
    pose proof (computePageRank_begin_scores w) as Hb.
    destruct (computePageRank_begin w) as [w' [|]]; simpl in Hb; [|done].
    rewrite Hg, He. simpl.
    by rewrite computePageRank_resume_Rejected_scores.
Qed.

Lemma computePageRank_failure_keeps_scores_witness :
  graph (app brokenWorld) = Some brokenGraph
  ∧ Engine.compute (adjacencyList brokenGraph) 50 (Q2Qc (85 # 100))
    = Throw InvalidInput
  ∧ pageRankScores (app (computePageRank_run Engine.compute brokenWorld))
    = Some sampleScores.
Proof.
  assert (Engine.compute (adjacencyList brokenGraph) 50 (Q2Qc (85 # 100))
          = Throw InvalidInput) as He by (by vm_compute).
  split_and!; [reflexivity|exact He|].
  exact (proj2 (proj2 (computePageRank_failure_keeps_scores
                         Engine.compute brokenWorld))
           brokenGraph InvalidInput eq_refl He).
Defined.

(** C5. In every state the page can reach, at most one engine invocation
    is awaited; while isComputing is set, invoking computePageRank
    changes nothing and starts no invocation; and when the awaited
    invocation settles, resolved or rejected, isComputing is cleared and
    nothing remains awaited. *)
Theorem computePageRank_one_at_a_time (evs : list event) :
  (length (pending (run evs)) ≤ 1)%nat
  ∧ (isComputing (app (run evs)) = true →
       computePageRank_begin (run evs) = (run evs, false))
  ∧ ∀ o, pending (run evs) ≠ [] →
       isComputing (app (step (run evs) (Settle o))) = false
       ∧ pending (step (run evs) (Settle o)) = [].
Proof.
  pose proof (run_inStep evs) as Hw.
  split_and!.
  - destruct Hw as [[_ ->]|[_ ->]]; simpl; lia.
  - intros Hc. unfold computePageRank_begin. by rewrite Hc.
  - intros o Hp.
    pose proof (computePageRank_resume_inStep o _ Hw) as Hw'.
    simpl. unfold computePageRank_resume in *.
    destruct (pending (run evs)) as [|adj rest] eqn:Hpe; [done|].
    assert (rest = []) as ->.
    { destruct Hw as [[_ Hl]|[_ Hl]]; rewrite Hpe in Hl; [|done].
      by destruct rest. }
    destruct o as [scores|]; simpl; [|done].
    by destruct (afterAssign _).
Qed.

Lemma computePageRank_one_at_a_time_witness :
  isComputing (app (run [Loaded sampleGraph; ClickCompute])) = true
  ∧ pending (run [Loaded sampleGraph; ClickCompute]) ≠ []
  ∧ computePageRank_begin (run [Loaded sampleGraph; ClickCompute])
    = (run [Loaded sampleGraph; ClickCompute], false)
  ∧ isComputing
      (app (step (run [Loaded sampleGraph; ClickCompute]) (Settle Rejected)))
    = false.
Proof.
  assert (pending (run [Loaded sampleGraph; ClickCompute]) ≠ []) as Hp
    by discriminate.
  split_and!; [reflexivity|exact Hp| |].
  - exact (proj1 (proj2 (computePageRank_one_at_a_time
                           [Loaded sampleGraph; ClickCompute])) eq_refl).
  - exact (proj1 (proj2 (proj2 (computePageRank_one_at_a_time
                           [Loaded sampleGraph; ClickCompute])) Rejected Hp)).
Defined.

(** ** The engine: sums of rationals *)

Section Sums.
Import Engine.
Local Open Scope Qc_scope.

Lemma sum_app (l1 l2 : list Qc) : sum (l1 ++ l2) = sum l1 + sum l2.
Proof.
  induction l1 as [|x l1 IH]; csimpl; [by rewrite Qcplus_0_l|].
  rewrite IH. ring.
Qed.

#[global] Instance sum_perm : Proper ((≡ₚ) ==> (=)) sum.
Proof.
  induction 1 as [|x l1 l2 _ IH|x y l|l1 l2 l3 _ IH1 _ IH2]; csimpl.
  - done.
  - by rewrite IH.
  - ring.
  - by rewrite IH1.
Qed.

Lemma sum_fmap_ext {A} (f g : A → Qc) (l : list A) :
  (∀ x, x ∈ l → f x = g x) → sum (f <$> l) = sum (g <$> l).
Proof.
  induction l as [|x l IH]; intros Hfg; csimpl; [done|].
  rewrite (Hfg x) by left. rewrite IH; [done|].
  intros y Hy. apply Hfg. by right.
Qed.

Lemma sum_fmap_plus {A} (f g : A → Qc) (l : list A) :
  sum ((λ x, f x + g x) <$> l) = sum (f <$> l) + sum (g <$> l).
Proof.
  induction l as [|x l IH]; csimpl; [by rewrite Qcplus_0_l|].
  rewrite IH. ring.
Qed.

Lemma sum_fmap_scale {A} (c : Qc) (f : A → Qc) (l : list A) :
  sum ((λ x, c * f x) <$> l) = c * sum (f <$> l).
Proof.
  induction l as [|x l IH]; csimpl; [by rewrite Qcmult_0_r|].
  rewrite IH. ring.
Qed.

Lemma ofNat_0 : ofNat 0 = 0.
Proof. apply Z2Qc_inj_0. Qed.

Lemma ofNat_S (n : nat) : ofNat (S n) = 1 + ofNat n.
Proof.
  unfold ofNat. rewrite Nat2Z.inj_succ, <-Z.add_1_l.
  by rewrite Z2Qc_inj_add, Z2Qc_inj_1.
Qed.

Lemma ofNat_nonneg (n : nat) : 0 ≤ ofNat n.
Proof. unfold ofNat. rewrite <-Z2Qc_inj_0, <-Z2Qc_inj_le. lia. Qed.

Lemma ofNat_pos (n : nat) : n ≠ 0%nat → 0 < ofNat n.
Proof. intros. unfold ofNat. rewrite <-Z2Qc_inj_0, <-Z2Qc_inj_lt. lia. Qed.

Lemma ofNat_neq_0 (n : nat) : n ≠ 0%nat → ofNat n ≠ 0.
Proof. intros Hn. apply not_symmetry, Qclt_not_eq. by apply ofNat_pos. Qed.

Lemma sum_fmap_const {A} (c : Qc) (l : list A) :
  sum ((λ _, c) <$> l) = ofNat (length l) * c.
Proof.
  induction l as [|x l IH]; csimpl.
  - by rewrite ofNat_0, Qcmult_0_l.
  - rewrite IH, ofNat_S. ring.
Qed.

Lemma sum_nonneg (l : list Qc) : Forall (λ x, 0 ≤ x) l → 0 ≤ sum l.
Proof.
  induction 1 as [|x l Hx _ IH]; csimpl; [done|].
  by apply Qcplus_nonneg_nonneg.
Qed.

Lemma sum_swap {A B} (h : A → B → Qc) (l1 : list A) (l2 : list B) :
  sum ((λ x, sum (h x <$> l2)) <$> l1)
  = sum ((λ y, sum ((λ x, h x y) <$> l1)) <$> l2).
Proof.
  induction l1 as [|x l1 IH]; csimpl.
  - induction l2 as [|y l2 IH2]; csimpl; [done|].
    by rewrite <-IH2, Qcplus_0_l.
  - by rewrite IH, sum_fmap_plus.
Qed.

(** Summing an indicator of [nbrs] over [keys] counts [nbrs]. *)
Lemma sum_indicator (c : Qc) (keys nbrs : list Z) :
  NoDup keys → NoDup nbrs → nbrs ⊆ keys →
  sum ((λ v, if bool_decide (v ∈ nbrs) then c else 0) <$> keys)
  = ofNat (length nbrs) * c.
Proof.
  intros Hk Hn Hsub.
  assert (filter (λ v, v ∈ nbrs) keys ≡ₚ nbrs) as Hperm.
  { apply NoDup_Permutation; [by apply NoDup_filter|done|].
    intros v. rewrite list_elem_of_filter. split; [tauto|].
    intros Hv. split; [done|]. by apply Hsub. }
  rewrite <-Hperm. clear Hperm Hn Hsub Hk.
  induction keys as [|k keys IH]; csimpl.
  - by rewrite ofNat_0, Qcmult_0_l.
  - rewrite filter_cons. case_bool_decide; case_decide; try done.
    + simpl. rewrite IH, ofNat_S. ring.
    + by rewrite IH, Qcplus_0_l.
Qed.

Lemma Qcdiv_nonneg (x y : Qc) : 0 ≤ x → 0 ≤ y → 0 ≤ x / y.
Proof.
  intros Hx Hy. destruct (decide (y = 0)) as [->|Hne].
  - unfold Qcdiv. by replace (x * / 0) with 0 by (by rewrite Qcmult_0_r).
  - unfold Qcdiv. rewrite <-(Qcmult_0_l (/ y)).
    apply Qcmult_le_compat_r; [done|].
    apply Qclt_le_weak, Qcinv_pos.
    destruct (Qcle_lt_or_eq _ _ Hy); [done|congruence].
Qed.
End Sums.

(** ** The engine: one iteration keeps a distribution *)

Section Iteration.
Import Engine.
Local Open Scope Qc_scope.

Lemma elem_of_fst_map_to_list {A} (m : gmap Z A) (k : Z) :
  k ∈ (map_to_list m).*1 ↔ is_Some (m !! k).
Proof.
  rewrite list_elem_of_fmap. split.
  - intros ([k' x] & -> & Hx). apply elem_of_map_to_list in Hx. by exists x.
  - intros [x Hx]. exists (k, x). split; [done|].
    by apply elem_of_map_to_list.
Qed.

Lemma total_mass (adj : gmap Z (list Z)) (s : gmap Z Qc) :
  dom s = dom adj → total s = mass adj s.
Proof.
  intros Hdom. unfold total, mass, keys.
  assert ((map_to_list adj).*1 ≡ₚ (map_to_list s).*1) as ->.
  { apply NoDup_Permutation; [apply NoDup_fst_map_to_list..|].
    intros k. by rewrite !elem_of_fst_map_to_list, <-!elem_of_dom, Hdom. }
  rewrite <-list_fmap_compose. apply sum_fmap_ext.
  intros [k x] Hx. apply elem_of_map_to_list in Hx.
  unfold scoreOf. simpl. by rewrite Hx.
Qed.

Context (adj : gmap Z (list Z)) (d : Qc).
Hypothesis Hclosed : closed adj.
Hypothesis Hnodup : duplicateFree adj.
Hypothesis Hsize : size adj ≠ 0%nat.
Hypothesis Hd : 0 < d ∧ d < 1.

Lemma length_keys : length (keys adj) = size adj.
Proof. unfold keys. by rewrite length_fmap, length_map_to_list. Qed.

Lemma entry_total (old : gmap Z Qc) (entry : Z * list Z) :
  entry ∈ map_to_list adj →
  sum ((λ v, share old v entry) <$> keys adj) + danglingShare old entry
  = scoreOf old entry.1.
Proof.
  destruct entry as [u nbrs]. intros Hu%elem_of_map_to_list.
  unfold share, danglingShare. simpl.
  rewrite sum_indicator.
  - destruct nbrs as [|n nbrs]; [cbn [length]; rewrite ofNat_0; ring|].
    rewrite Qcmult_div_r by by apply ofNat_neq_0. ring.
  - apply NoDup_fst_map_to_list.
  - by eapply Hnodup.
  - intros v Hv. apply elem_of_fst_map_to_list.
    specialize (Hclosed u nbrs Hu). simpl in Hclosed.
    rewrite Forall_forall in Hclosed. by apply Hclosed.
Qed.

Lemma inflow_total (old : gmap Z Qc) :
  sum (inflow adj old <$> keys adj) + danglingMass adj old = mass adj old.
Proof.
  unfold inflow, danglingMass, mass.
  rewrite (sum_swap (λ v entry, share old v entry)).
  rewrite <-sum_fmap_plus. unfold keys at 2.
  rewrite <-list_fmap_compose. apply sum_fmap_ext.
  intros entry He. by apply entry_total.
Qed.

Lemma newScore_total (old : gmap Z Qc) :
  sum (newScore adj d old <$> keys adj) = (1 - d) + d * mass adj old.
Proof.
  unfold newScore.
  rewrite (sum_fmap_plus
             (λ v, (1 - d) / ofNat (size adj) + d * inflow adj old v)
             (λ _, d * (danglingMass adj old / ofNat (size adj)))).
  rewrite (sum_fmap_plus (λ _, (1 - d) / ofNat (size adj))
                         (λ v, d * inflow adj old v)).
  rewrite !sum_fmap_const, sum_fmap_scale, length_keys.
  rewrite <-inflow_total.
  pose proof (ofNat_neq_0 _ Hsize).
  field. done.
Qed.

Lemma iterate_lookup (old : gmap Z Qc) (v : Z) :
  iterate adj d old !! v = (λ _, newScore adj d old v) <$> adj !! v.
Proof. unfold iterate. rewrite map_lookup_imap. by destruct (adj !! v). Qed.

Lemma dom_iterate (old : gmap Z Qc) : dom (iterate adj d old) = dom adj.
Proof.
  apply set_eq. intros v.
  by rewrite !elem_of_dom, iterate_lookup, fmap_is_Some.
Qed.

Lemma mass_iterate (old : gmap Z Qc) :
  mass adj (iterate adj d old) = (1 - d) + d * mass adj old.
Proof.
  rewrite <-newScore_total. unfold mass. apply sum_fmap_ext.
  intros v [x Hx]%elem_of_fst_map_to_list.
  unfold scoreOf. by rewrite iterate_lookup, Hx.
Qed.

Lemma share_nonneg (old : gmap Z Qc) (v : Z) (entry : Z * list Z) :
  (∀ u, 0 ≤ scoreOf old u) → 0 ≤ share old v entry.
Proof.
  intros Hold. unfold share. case_bool_decide; [|done].
  apply Qcdiv_nonneg; [done|apply ofNat_nonneg].
Qed.

Lemma newScore_nonneg (old : gmap Z Qc) (v : Z) :
  (∀ u, 0 ≤ scoreOf old u) → 0 ≤ newScore adj d old v.
Proof.
  intros Hold. destruct Hd as [Hd0 Hd1]. unfold newScore.
  assert (0 ≤ d) by by apply Qclt_le_weak.
  assert (0 ≤ 1 - d).
  { apply (Qcplus_le_mono_r _ _ d).
    replace (1 - d + d) with 1 by ring.
    rewrite Qcplus_0_l. by apply Qclt_le_weak. }
  repeat apply Qcplus_nonneg_nonneg.
  - apply Qcdiv_nonneg; [done|apply ofNat_nonneg].
  - rewrite <-(Qcmult_0_r d). apply Qcmult_le_mono_nonneg_l; [done|].
    apply sum_nonneg, Forall_fmap, Forall_forall. intros entry _.
    by apply share_nonneg.
  - rewrite <-(Qcmult_0_r d). apply Qcmult_le_mono_nonneg_l; [done|].
    apply Qcdiv_nonneg; [|apply ofNat_nonneg].
    apply sum_nonneg, Forall_fmap, Forall_forall. intros [u nbrs] _.
    unfold danglingShare. simpl. by destruct nbrs.
Qed.

Lemma distribution_initial : distribution adj (initial adj).
Proof.
  pose proof (ofNat_neq_0 _ Hsize) as HN.
  unfold distribution, initial. split_and!.
  - apply dom_fmap_L.
  - intros u. unfold scoreOf. rewrite lookup_fmap.
    destruct (adj !! u); simpl; [|done].
    apply Qcdiv_nonneg; [done|apply ofNat_nonneg].
  - unfold mass.
    rewrite (sum_fmap_ext _ (λ _, 1 / ofNat (size adj))).
    + rewrite sum_fmap_const, length_keys. by field.
    + intros v [x Hx]%elem_of_fst_map_to_list.
      unfold scoreOf. by rewrite lookup_fmap, Hx.
Qed.

Lemma distribution_iterate (old : gmap Z Qc) :
  distribution adj old → distribution adj (iterate adj d old).
Proof.
  intros (Hdom & Hpos & Hmass). split_and!.
  - apply dom_iterate.
  - intros u. unfold scoreOf. rewrite iterate_lookup.
    destruct (adj !! u); simpl; [|done]. by apply newScore_nonneg.
  - rewrite mass_iterate, Hmass. ring.
Qed.

Lemma distribution_iterations (n : nat) (old : gmap Z Qc) :
  distribution adj old → distribution adj (iterations adj d n old).
Proof.
  revert old. induction n as [|n IH]; intros old Hold; simpl; [done|].
  case_bool_decide; [|apply IH]; by apply distribution_iterate.
Qed.
End Iteration.

(** ** Claims about the engine *)

Lemma not_closed_iff (adj : gmap Z (list Z)) :
  ¬ closed adj ↔
  ∃ k nbrs n, adj !! k = Some nbrs ∧ n ∈ nbrs ∧ adj !! n = None.
Proof.
  unfold closed. rewrite map_not_Forall by apply _. split.
  - intros (k & nbrs & Hk & Hn).
    apply (not_Forall_Exists _), Exists_exists in Hn as (n & Hn & Hnone).
    exists k, nbrs, n. split_and!; [done..|].
    by apply eq_None_not_Some.
  - intros (k & nbrs & n & Hk & Hn & Hnone). exists k, nbrs.
    split; [done|]. rewrite Forall_forall. intros Hall.
    specialize (Hall n Hn). rewrite Hnone in Hall. by destruct Hall.
Qed.

Lemma invalid_iff (adj : gmap Z (list Z)) (m : Z) (d : Qc) :
  Engine.invalid adj m d = true ↔
  m ≤ 0 ∨ ¬ (0 < d ∧ d < 1)%Qc ∨ ¬ closed adj.
Proof.
  unfold Engine.invalid.
  rewrite !orb_true_iff, !negb_true_iff, !bool_decide_eq_true,
    !bool_decide_eq_false.
  tauto.
Qed.

(** C8. compute fails with InvalidInput exactly when maxIterations <= 0,
    or dampingFactor is not strictly between 0 and 1, or some neighbor
    identifier is not a key of the adjacency relation; it fails in no
    other way, so on valid input it returns a ScoreMap; and
    compute(adj, 0, 0.85) and compute(adj, 50, 1.0) fail with
    InvalidInput. *)
Theorem compute_fails_iff (adj : gmap Z (list Z)) (m : Z) (d : Qc) :
  (Engine.compute adj m d = Throw InvalidInput ↔
     m ≤ 0 ∨ ¬ (0 < d ∧ d < 1)%Qc
     ∨ ∃ k nbrs n, adj !! k = Some nbrs ∧ n ∈ nbrs ∧ adj !! n = None)
  ∧ (∀ e, Engine.compute adj m d = Throw e → e = InvalidInput)
  ∧ (0 < m → (0 < d ∧ d < 1)%Qc → closed adj →
       ∃ s, Engine.compute adj m d = Normal s)
  ∧ Engine.compute adj 0 (Q2Qc (85 # 100)) = Throw InvalidInput
  ∧ Engine.compute adj 50 1%Qc = Throw InvalidInput.
Proof.
  split_and!.
  - rewrite <-not_closed_iff, <-invalid_iff. unfold Engine.compute.
    destruct (Engine.invalid adj m d); [done|].
    split; [|done]. by case_bool_decide.
  - intros e. unfold Engine.compute.
    destruct (Engine.invalid adj m d); [by intros [= <-]|].
    by case_bool_decide.
  - intros Hm Hd Hc. unfold Engine.compute.
    destruct (Engine.invalid adj m d) eqn:Hinv.
    + apply invalid_iff in Hinv. exfalso. destruct Hinv as [?|[?|?]]; [lia|done..].
    + case_bool_decide; eauto.
  - unfold Engine.compute.
    assert (Engine.invalid adj 0 (Q2Qc (85 # 100)) = true) as ->; [|done].
    apply invalid_iff. left. lia.
  - unfold Engine.compute.
    assert (Engine.invalid adj 50 1%Qc = true) as ->; [|done].
    apply invalid_iff. right. left. intros [_ H11]. by apply Qclt_not_eq in H11.
Qed.

Lemma sampleGraph_valid : validAdjacency (adjacencyList sampleGraph).
Proof.
  destruct (@parseCSVToGraph_shape decimalBuiltins twoLines)
    as (ns & _ & Hns & _ & Hedges & Ht & Hd & Hkeys).
  fold sampleGraph in *. split_and!.
  - by eapply tracks_closed.
  - by eapply tracks_symmetric.
  - done.
  - eapply tracks_loopFree; [done| |].
    + apply Forall_forall. intros e He _. rewrite Hkeys, Hns.
      exists e. tauto.
    + rewrite <-Hedges. by repeat constructor.
Qed.

Lemma compute_fails_iff_witness :
  0 < 50 ∧ (0 < Q2Qc (85 # 100) ∧ Q2Qc (85 # 100) < 1)%Qc
  ∧ closed (adjacencyList sampleGraph)
  ∧ ∃ s, Engine.compute (adjacencyList sampleGraph) 50 (Q2Qc (85 # 100))
         = Normal s.
Proof.
  assert (0 < Q2Qc (85 # 100) ∧ Q2Qc (85 # 100) < 1)%Qc as Hd by done.
  pose proof (proj1 sampleGraph_valid) as Hc.
  split_and!; [lia|apply Hd..|exact Hc|].
  exact (proj1 (proj2 (proj2
           (compute_fails_iff (adjacencyList sampleGraph) 50 (Q2Qc (85 # 100)))))
           eq_refl Hd Hc).
Defined.

(** C6, as stated, fails on the adjacency relation without nodes: it is
    valid, compute returns the empty ScoreMap for it, and the scores of
    the empty map sum to 0. *)
Lemma compute_conservation_counterexample :
  validAdjacency ∅
  ∧ Engine.compute ∅ 50 (Q2Qc (85 # 100)) = Normal ∅
  ∧ ¬ (Qcabs (Engine.total ∅ - 1) ≤ Engine.tolerance)%Qc.
Proof.
  split_and!.
  - split_and!.
    + apply map_Forall_empty.
    + intros a b la Ha. by rewrite lookup_empty in Ha.
    + intros a la Ha. by rewrite lookup_empty in Ha.
    + intros a la Ha. by rewrite lookup_empty in Ha.
  - reflexivity.
  - intros Hle. vm_compute in Hle. by apply Hle.
Qed.

(** C6, amended. For every valid adjacency relation with at least one
    node and valid parameters, compute returns a ScoreMap over the nodes
    of the relation in which every score is non-negative and the sum of
    all scores is within 1e-6 of 1 after the final iteration. *)
Theorem compute_conservation (adj : gmap Z (list Z)) (m : Z) (d : Qc) :
  validAdjacency adj → adj ≠ ∅ → 0 < m → (0 < d ∧ d < 1)%Qc →
  ∃ s, Engine.compute adj m d = Normal s
       ∧ dom s = dom adj
       ∧ map_Forall (λ _ x, (0 ≤ x)%Qc) s
       ∧ (Qcabs (Engine.total s - 1) ≤ Engine.tolerance)%Qc.
Proof.
  intros (Hc & _ & Hnd & _) Hne Hm Hd.
  assert (size adj ≠ 0%nat) as Hsize by by apply map_size_non_empty_iff.
  exists (Engine.iterations adj d (Z.to_nat m) (Engine.initial adj)).
  destruct (distribution_iterations adj d Hc Hnd Hsize Hd (Z.to_nat m)
              (Engine.initial adj)) as (Hdom & Hpos & Hmass).
  { by apply distribution_initial. }
  split_and!.
  - unfold Engine.compute.
    assert (Engine.invalid adj m d = false) as ->.
    { apply not_true_is_false. rewrite invalid_iff.
      intros [?|[?|?]]; [lia|done..]. }
    by rewrite bool_decide_eq_false_2.
  - done.
  - intros k x Hx. specialize (Hpos k).
    unfold Engine.scoreOf in Hpos. by rewrite Hx in Hpos.
  - rewrite (total_mass adj), Hmass by done.
    by replace (1 - 1)%Qc with 0%Qc by ring.
Qed.

Lemma compute_conservation_witness :
  validAdjacency (adjacencyList sampleGraph)
  ∧ adjacencyList sampleGraph ≠ ∅
  ∧ 0 < 50 ∧ (0 < Q2Qc (85 # 100) ∧ Q2Qc (85 # 100) < 1)%Qc
  ∧ ∃ s, Engine.compute (adjacencyList sampleGraph) 50 (Q2Qc (85 # 100))
         = Normal s
         ∧ dom s = dom (adjacencyList sampleGraph)
         ∧ map_Forall (λ _ x, (0 ≤ x)%Qc) s
         ∧ (Qcabs (Engine.total s - 1) ≤ Engine.tolerance)%Qc.
Proof.
  assert (adjacencyList sampleGraph ≠ ∅) as Hne.
  { intros Heq. assert (adjacencyList sampleGraph !! 1 = None) as Hl
      by (by rewrite Heq). discriminate Hl. }
  assert (0 < Q2Qc (85 # 100) ∧ Q2Qc (85 # 100) < 1)%Qc as Hd by done.
  split_and!; [exact sampleGraph_valid|exact Hne|lia|apply Hd..|].
  exact (compute_conservation (adjacencyList sampleGraph) 50
           (Q2Qc (85 # 100)) sampleGraph_valid Hne eq_refl Hd).
Defined.

(** What the design document expects of two small graphs. *)
Example compute_single_node :
  ∃ s, Engine.compute {[ 1 := [] ]} 50 (Q2Qc (85 # 100)) = Normal s
       ∧ Engine.scoreOf s 1 = 1%Qc.
Proof.
  eexists. split; [reflexivity|]. apply Qc_is_canon. by vm_compute.
Qed.

Example compute_two_nodes :
  ∃ s, Engine.compute (adjacencyList (@parseCSVToGraph decimalBuiltins "1,2"))
         50 (Q2Qc (85 # 100)) = Normal s
       ∧ Engine.scoreOf s 1 = Q2Qc (1 # 2)
       ∧ Engine.scoreOf s 2 = Q2Qc (1 # 2).
Proof.
  eexists. split; [reflexivity|]. split; apply Qc_is_canon; by vm_compute.
Qed.

(** What one uninterrupted call leaves behind when none was under way. *)
Lemma computePageRank_run_idle
    (engine : gmap Z (list Z) → Z → Qc → completion (gmap Z Qc)) (w : World) :
  isComputing (app w) = false →
  graph (app (computePageRank_run engine w)) = graph (app w)
  ∧ isComputing (app (computePageRank_run engine w)) = false
  ∧ pageRankScores (app (computePageRank_run engine w))
    = match graph (app w) with
      | Some g =>
          match engine (adjacencyList g) 50 (Q2Qc (85 # 100)) with
          | Normal scores => Some scores
          | Throw _ => pageRankScores (app w)
          end
      | None => pageRankScores (app w)
      end.
Proof.
  intros Hidle. unfold computePageRank_run, computePageRank_begin.
  rewrite Hidle. simpl.
  destruct (graph (app w)) as [g|] eqn:Hg; simpl; [|by rewrite Hg].
  unfold computePageRank_resume. simpl.
  destruct (pending w ++ [adjacencyList g]) as [|adj rest] eqn:Hp.
  { by apply app_nil in Hp as [_ [=]]. }
  destruct (engine (adjacencyList g) 50 (Q2Qc (85 # 100))) as [scores|e];
    simpl; [|by rewrite Hg].
  destruct (afterAssign _); simpl; by rewrite Hg.
Qed.

(* ================================================================== *)
(** * Part III. Further properties of the application                  *)
(* ================================================================== *)

(** ** More on parseCSVToGraph *)

(** X1. In the adjacency list parseCSVToGraph returns, [b] is in the
    neighbor list of [a] exactly when some well-formed line of the text
    names [a] and [b], in either order. *)
Theorem parseCSVToGraph_neighbors `{Builtins} (csvText : string) (a b : Z) :
  b ∈ neighbors (adjacencyList (parseCSVToGraph csvText)) a
  ↔ ∃ e, e ∈ accepted csvText ∧ joins e a b.
Proof.
  destruct (parseCSVToGraph_shape csvText)
    as (ns & _ & Hns & _ & _ & Ht & _ & Hkeys).
  rewrite (Ht a b), !Hkeys, !Hns. split.
  - intros (_ & _ & He). exact He.
  - intros (e & He & Hj). split_and!.
    + exists e. split; [done|]. destruct Hj as [[<- _]|[_ <-]]; tauto.
    + exists e. split; [done|]. destruct Hj as [[_ <-]|[<- _]]; tauto.
    + by exists e.
Qed.

Lemma parseCSVToGraph_no_lines `{Builtins} (csvText : string) :
  accepted csvText = [] →
  parseCSVToGraph csvText = {| nodes := []; edges := []; adjacencyList := ∅ |}.
Proof.
  unfold accepted, parseCSVToGraph. intros Hacc.
  destruct (foldl_parseLine (split "010" (trim csvText)) [] [])
    as (He & _ & Hns).
  destruct (foldl parseLine ([], []) (split "010" (trim csvText)))
    as [es ns].
  simpl in *. rewrite Hacc in *. subst es.
  assert (ns = []) as ->; [|done].
  destruct ns as [|x ns]; [done|]. exfalso.
  destruct (proj1 (Hns x)) as [Hx|(e & He & _)]; [left| |];
    by apply elem_of_nil in Hx || apply elem_of_nil in He.
Qed.

(** X2. A text without a well-formed line, and so a text that trims to
    the empty string, yields the graph without nodes, edges or keys. *)
Theorem parseCSVToGraph_empty `{Builtins} (csvText : string) :
  (accepted csvText = [] →
     parseCSVToGraph csvText
     = {| nodes := []; edges := []; adjacencyList := ∅ |})
  ∧ (trim csvText = EmptyString → accepted csvText = []).
Proof.
  split.
  - apply parseCSVToGraph_no_lines.
  - intros Htrim. unfold accepted. by rewrite Htrim.
Qed.

Lemma parseCSVToGraph_empty_witness :
  @accepted decimalBuiltins "id,name" = []
  ∧ @parseCSVToGraph decimalBuiltins "id,name"
    = {| nodes := []; edges := []; adjacencyList := ∅ |}.
Proof.
  assert (@accepted decimalBuiltins "id,name" = []) as Hacc by reflexivity.
  split; [exact Hacc|].
  exact (proj1 (@parseCSVToGraph_empty decimalBuiltins "id,name") Hacc).
Defined.

(** ** More on connectNodes *)

Lemma pushUnique_noop (adj : gmap Z (list Z)) (k x : Z) :
  adj !! k = None ∨ x ∈ neighbors adj k → pushUnique adj k x = adj.
Proof.
  unfold pushUnique, neighbors.
  destruct (adj !! k) as [l|]; [|done]. simpl.
  intros [?|Hx]; [done|]. by rewrite bool_decide_eq_true_2.
Qed.

Lemma pushUnique_lookup_None (adj : gmap Z (list Z)) (k x a : Z) :
  pushUnique adj k x !! a = None ↔ adj !! a = None.
Proof. rewrite !eq_None_not_Some. by rewrite pushUnique_is_Some. Qed.

Lemma addEdge_again (adj : gmap Z (list Z)) (s t : Z) :
  addEdge (addEdge adj {| source := s; target := t |})
          {| source := s; target := t |}
  = addEdge adj {| source := s; target := t |}.
Proof.
  rewrite !addEdge_pushUnique. simpl.
  set (A := pushUnique (pushUnique adj s t) t s).
  assert (pushUnique A s t = A) as ->.
  { apply pushUnique_noop. destruct (adj !! s) as [l|] eqn:Hs.
    - right. unfold A. rewrite !elem_of_neighbors_pushUnique.
      left. right. split_and!; [done..|]. by rewrite Hs.
    - left. unfold A. by rewrite !pushUnique_lookup_None. }
  apply pushUnique_noop. destruct (adj !! t) as [l|] eqn:Ht.
  - right. unfold A. rewrite elem_of_neighbors_pushUnique.
    right. split_and!; [done..|]. rewrite pushUnique_is_Some. by rewrite Ht.
  - left. unfold A. by rewrite !pushUnique_lookup_None.
Qed.

Lemma addEdge_reversed (adj : gmap Z (list Z)) (s t : Z) :
  is_Some (adj !! s) → is_Some (adj !! t) →
  addEdge (addEdge adj {| source := s; target := t |})
          {| source := t; target := s |}
  = addEdge adj {| source := s; target := t |}.
Proof.
  intros Hs Ht. rewrite !addEdge_pushUnique. simpl.
  set (A := pushUnique (pushUnique adj s t) t s).
  assert (pushUnique A t s = A) as ->.
  { apply pushUnique_noop. right. unfold A.
    rewrite elem_of_neighbors_pushUnique. right.
    split_and!; [done..|]. by rewrite pushUnique_is_Some. }
  apply pushUnique_noop. right. unfold A.
  rewrite !elem_of_neighbors_pushUnique. left. right. by split_and!.
Qed.

Lemma connectNodes_graph_Normal (s t : Z) (g : Graph) :
  (connectNodes_graph s t g).2 = Normal ()
  ↔ is_Some (adjacencyList g !! s) ∧ is_Some (adjacencyList g !! t).
Proof.
  unfold connectNodes_graph. simpl.
  destruct (adjacencyList g !! s) as [ls|] eqn:Hs.
  - assert (∀ adj', adj' = (if bool_decide (t ∈ ls) then adjacencyList g
                            else <[s := ls ++ [t]]> (adjacencyList g)) →
                    is_Some (adj' !! t) ↔ is_Some (adjacencyList g !! t)) as Hk.
    { intros adj' ->. pose proof (pushUnique_is_Some (adjacencyList g) s t t) as Hp.
      unfold pushUnique in Hp. by rewrite Hs in Hp. }
    specialize (Hk _ eq_refl).
    destruct (_ !! t) as [lt|] eqn:Ht; simpl.
    + split; [|done]. intros _. split; [eauto|]. apply Hk. eauto.
    + split; [done|]. intros [_ Hn]. apply Hk in Hn. by destruct Hn.
  - simpl. split; [done|]. intros [[? ?] _]. done.
Qed.

(** X3. connectNodes returns normally exactly when both identifiers are
    keys of the adjacency list.  The edge is recorded and the node list
    kept in every case; when the source is not a key the adjacency list
    is left as it was, and when only the target is missing the source's
    neighbor list has already received the target. *)
Theorem connectNodes_graph_outcome (s t : Z) (g : Graph) :
  ((connectNodes_graph s t g).2 = Normal ()
   ↔ is_Some (adjacencyList g !! s) ∧ is_Some (adjacencyList g !! t))
  ∧ edges (connectNodes_graph s t g).1
    = edges g ++ [ {| source := s; target := t |} ]
  ∧ nodes (connectNodes_graph s t g).1 = nodes g
  ∧ (adjacencyList g !! s = None →
       adjacencyList (connectNodes_graph s t g).1 = adjacencyList g)
  ∧ (is_Some (adjacencyList g !! s) → adjacencyList g !! t = None →
     t ∉ neighbors (adjacencyList g) s →
       adjacencyList (connectNodes_graph s t g).1 !! s
       = Some (neighbors (adjacencyList g) s ++ [t])).
Proof.
  split_and!.
  - apply connectNodes_graph_Normal.
  - apply connectNodes_graph_edges.
  - unfold connectNodes_graph. simpl.
    destruct (adjacencyList g !! s); [|done]. by destruct (_ !! t).
  - intros Hs. by rewrite connectNodes_graph_adjacency, Hs.
  - intros [ls Hs] Ht Hnew.
    rewrite connectNodes_graph_adjacency, Hs, addEdge_pushUnique. simpl.
    rewrite (pushUnique_noop _ t s)
      by (left; by rewrite pushUnique_lookup_None).
    unfold pushUnique, neighbors in *. rewrite Hs in *. simpl in *.
    rewrite bool_decide_eq_false_2 by done. by rewrite lookup_insert_eq.
Qed.

Lemma connectNodes_graph_outcome_witness :
  is_Some (adjacencyList sampleGraph !! 1)
  ∧ adjacencyList sampleGraph !! 99 = None
  ∧ (99 ∉ neighbors (adjacencyList sampleGraph) 1)
  ∧ adjacencyList (connectNodes_graph 1 99 sampleGraph).1 !! 1
    = Some (neighbors (adjacencyList sampleGraph) 1 ++ [99]).
Proof.
  assert (is_Some (adjacencyList sampleGraph !! 1)) as H1 by (by exists [2]).
  assert (adjacencyList sampleGraph !! 99 = None) as H2 by reflexivity.
  assert (99 ∉ neighbors (adjacencyList sampleGraph) 1) as H3.
  { change (99 ∉ [2]). by intros [=]%list_elem_of_singleton. }
  split_and!; [exact H1|exact H2|exact H3|].
  exact (proj2 (proj2 (proj2 (proj2
           (connectNodes_graph_outcome 1 99 sampleGraph)))) H1 H2 H3).
Defined.

(** X4. Calling connectNodes a second time with the same identifiers
    leaves the adjacency list as the first call left it, while the edge
    is recorded twice; after a call that returned normally, the call with
    the identifiers exchanged changes no neighbor list either. *)
Theorem connectNodes_graph_again (s t : Z) (g : Graph) :
  adjacencyList (connectNodes_graph s t (connectNodes_graph s t g).1).1
  = adjacencyList (connectNodes_graph s t g).1
  ∧ edges (connectNodes_graph s t (connectNodes_graph s t g).1).1
    = edges g ++ [ {| source := s; target := t |};
                   {| source := s; target := t |} ]
  ∧ ((connectNodes_graph s t g).2 = Normal () →
       adjacencyList (connectNodes_graph t s (connectNodes_graph s t g).1).1
       = adjacencyList (connectNodes_graph s t g).1).
Proof.
  split_and!.
  - rewrite (connectNodes_graph_adjacency s t (connectNodes_graph s t g).1).
    destruct (adjacencyList (connectNodes_graph s t g).1 !! s) eqn:Hs1; [|done].
    assert (is_Some (adjacencyList g !! s)) as [ls Hs].
    { apply (connectNodes_graph_is_Some s t g s). eauto. }
    rewrite connectNodes_graph_adjacency, Hs. apply addEdge_again.
  - by rewrite !connectNodes_graph_edges, <-app_assoc.
  - intros [[ls Hs] [lt Ht]]%connectNodes_graph_Normal.
    rewrite (connectNodes_graph_adjacency t s (connectNodes_graph s t g).1).
    assert (is_Some (adjacencyList (connectNodes_graph s t g).1 !! t))
      as [lt' ->] by (apply connectNodes_graph_is_Some; eauto).
    rewrite connectNodes_graph_adjacency, Hs.
    apply addEdge_reversed; eauto.
Qed.

Lemma connectNodes_graph_again_witness :
  (connectNodes_graph 1 3 sampleGraph).2 = Normal ()
  ∧ adjacencyList
      (connectNodes_graph 3 1 (connectNodes_graph 1 3 sampleGraph).1).1
    = adjacencyList (connectNodes_graph 1 3 sampleGraph).1.
Proof.
  assert ((connectNodes_graph 1 3 sampleGraph).2 = Normal ()) as Hn
    by reflexivity.
  split; [exact Hn|].
  exact (proj2 (proj2 (connectNodes_graph_again 1 3 sampleGraph)) Hn).
Defined.

Lemma pushUnique_prefix (adj : gmap Z (list Z)) (k x a : Z) :
  neighbors adj a `prefix_of` neighbors (pushUnique adj k x) a.
Proof.
  unfold pushUnique, neighbors.
  destruct (adj !! k) as [l|] eqn:Hk; [|done].
  case_bool_decide; [done|].
  destruct (decide (k = a)) as [->|Hne].
  - rewrite lookup_insert_eq, Hk. simpl. by exists [x].
  - by rewrite lookup_insert_ne.
Qed.

(** X5. connectNodes never removes or reorders anything: the keys of the
    adjacency list stay the same, and every neighbor list it leaves
    starts with the list that was there before. *)
Theorem connectNodes_graph_grows (s t : Z) (g : Graph) (a : Z) :
  (is_Some (adjacencyList (connectNodes_graph s t g).1 !! a)
   ↔ is_Some (adjacencyList g !! a))
  ∧ neighbors (adjacencyList g) a
      `prefix_of` neighbors (adjacencyList (connectNodes_graph s t g).1) a.
Proof.
  split; [apply connectNodes_graph_is_Some|].
  rewrite connectNodes_graph_adjacency.
  destruct (adjacencyList g !! s); [|done].
  rewrite addEdge_pushUnique. simpl.
  etrans; apply pushUnique_prefix.
Qed.

(** ** connectNodes and getRecommendations together *)

Lemma getRecommendations_elem (a : PageRankApp) (g : Graph) (n : Z)
    (recs : list Recommendation) (r : Recommendation) :
  graph a = Some g → getRecommendations a n = Normal recs → r ∈ recs →
  node r ≠ parseInt n
  ∧ (node r ∉ neighbors (adjacencyList g) n)
  ∧ (node r ∈ id <$> nodes g).
Proof.
  intros Hg Hrecs Hr.
  destruct (pageRankScores a) as [scores|] eqn:Hs.
  - rewrite (getRecommendations_eq a g scores n Hg Hs) in Hrecs.
    injection Hrecs as <-.
    apply subseteq_take in Hr.
    rewrite Array_sort_perm in Hr.
    apply list_elem_of_fmap in Hr as (nd & -> & Hnd).
    unfold offered in Hnd. apply list_elem_of_filter in Hnd as [[??] ?].
    simpl. split_and!; [done..|]. by apply list_elem_of_fmap_2.
  - unfold getRecommendations in Hrecs. rewrite Hs in Hrecs.
    injection Hrecs as <-. by apply elem_of_nil in Hr.
Qed.

(** X6. Once connectNodes(s, t) has returned normally, each of the two
    nodes is in the other's neighbor list, so getRecommendations for [s]
    no longer names [t], nor the one for [t] names [s], whatever the
    scores. *)
Theorem connectNodes_then_getRecommendations (a : PageRankApp) (g : Graph)
    (s t : Z) (recs : list Recommendation) :
  graph a = Some g →
  (connectNodes_graph s t g).2 = Normal () →
  t ∈ neighbors (adjacencyList (connectNodes_graph s t g).1) s
  ∧ s ∈ neighbors (adjacencyList (connectNodes_graph s t g).1) t
  ∧ (getRecommendations
       (with_graph (Some (connectNodes_graph s t g).1) a) s = Normal recs →
     t ∉ node <$> recs)
  ∧ (getRecommendations
       (with_graph (Some (connectNodes_graph s t g).1) a) t = Normal recs →
     s ∉ node <$> recs).
Proof.
  intros Hg [[ls Hs] [lt Ht]]%connectNodes_graph_Normal.
  assert (t ∈ neighbors (adjacencyList (connectNodes_graph s t g).1) s
          ∧ s ∈ neighbors (adjacencyList (connectNodes_graph s t g).1) t)
    as [Hst Hts].
  { rewrite connectNodes_graph_adjacency, Hs, addEdge_pushUnique. simpl.
    rewrite !elem_of_neighbors_pushUnique, !pushUnique_is_Some, Hs, Ht.
    split; [left; right|right]; eauto. }
  split_and!; [done..| |].
  - intros Hrecs (r & Heq & Hr)%list_elem_of_fmap.
    destruct (getRecommendations_elem
                (with_graph (Some (connectNodes_graph s t g).1) a)
                (connectNodes_graph s t g).1 s recs r eq_refl Hrecs Hr)
      as (_ & Hn & _).
    by rewrite <-Heq in Hn.
  - intros Hrecs (r & Heq & Hr)%list_elem_of_fmap.
    destruct (getRecommendations_elem
                (with_graph (Some (connectNodes_graph s t g).1) a)
                (connectNodes_graph s t g).1 t recs r eq_refl Hrecs Hr)
      as (_ & Hn & _).
    by rewrite <-Heq in Hn.
Qed.






Lemma connectNodes_then_getRecommendations_witness :
  graph sampleApp = Some sampleGraph
  ∧ (connectNodes_graph 1 3 sampleGraph).2 = Normal ()
  ∧ getRecommendations
      (with_graph (Some (connectNodes_graph 1 3 sampleGraph).1) sampleApp) 1
    = Normal []
  ∧ 3 ∉ node <$> @nil Recommendation.
Proof.
  assert ((connectNodes_graph 1 3 sampleGraph).2 = Normal ()) as Hn
    by reflexivity.
  assert (getRecommendations
            (with_graph (Some (connectNodes_graph 1 3 sampleGraph).1) sampleApp) 1
          = Normal []) as Hrecs by (by vm_compute).
  split_and!; [reflexivity|exact Hn|exact Hrecs|].
  exact (proj1 (proj2 (proj2
           (connectNodes_then_getRecommendations sampleApp sampleGraph 1 3 []
              eq_refl Hn))) Hrecs).
Defined.


(** ** Ties between recommendations *)

Section Stable.
Context {A : Type} (cmp : A → A → comparison).
(** [T] is the order the elements come in; [R] refines the comparator
    by it. *)
Context (R T : relation A) (P : A → Prop).
Hypothesis cmp_lt : ∀ x y, P x → P y → cmp x y = Lt → R x y.
Hypothesis cmp_eq : ∀ x y, P x → P y → cmp x y = Eq → T x y → R x y.
Hypothesis cmp_gt : ∀ x y, P x → P y → cmp x y = Gt → R y x.

Lemma sort_insert_stable (x : A) (l : list A) :
  P x → Forall P l → Forall (T x) l → Sorted R l →
  Sorted R (sort_insert cmp x l).
Proof.
  intros Hx Hl Ht Hs. induction l as [|y l IH]; simpl.
  - repeat constructor.
  - apply Forall_cons in Hl as [Hy Hl].
    apply Forall_cons in Ht as [Hxy Ht].
    apply Sorted_inv in Hs as [Hs Hhd].
    destruct (cmp x y) eqn:E.
    + constructor; [by constructor|]. constructor. by apply cmp_eq.
    + constructor; [by constructor|]. constructor. by apply cmp_lt.
    + constructor; [by apply IH|].
      destruct l as [|z l]; simpl.
      * constructor. by apply cmp_gt.
      * destruct (cmp x z); constructor;
          solve [by apply cmp_gt | by inversion Hhd].
Qed.

Lemma Array_sort_stable (l : list A) :
  Forall P l → StronglySorted T l → Sorted R (Array_sort cmp l).
Proof.
  induction l as [|x l IH]; simpl; intros Hl Ht.
  - constructor.
  - apply Forall_cons in Hl as [Hx Hl].
    apply StronglySorted_inv in Ht as [Ht Hxl].
    apply sort_insert_stable; [done| | |by apply IH].
    + by rewrite (Array_sort_perm cmp l).
    + by rewrite (Array_sort_perm cmp l).
Qed.
End Stable.

Lemma StronglySorted_filter {A} (R : relation A) (P : A → Prop)
    `{∀ x, Decision (P x)} (l : list A) :
  StronglySorted R l → StronglySorted R (filter P l).
Proof.
  induction 1 as [|x l Hs IH Hall]; [constructor|].
  rewrite filter_cons. case_decide; [|done].
  constructor; [done|].
  apply Forall_forall. intros y [_ Hy]%list_elem_of_filter.
  rewrite Forall_forall in Hall. by apply Hall.
Qed.

Lemma StronglySorted_fmap_inv {A B} (f : A → B) (R : relation B) (l : list A) :
  StronglySorted R (f <$> l) → StronglySorted (λ x y, R (f x) (f y)) l.
Proof.
  induction l as [|x l IH]; csimpl; intros Hs; [constructor|].
  apply StronglySorted_inv in Hs as [Hs Hall].
  constructor; [by apply IH|]. by rewrite Forall_fmap in Hall.
Qed.

Lemma sgnQc_Lt (x y : Qc) : sgnQc (Some (x - y)%Qc) = Lt ↔ (x < y)%Qc.
Proof.
  unfold sgnQc, Qccompare. rewrite <-Qlt_alt.
  change (x - y < 0 ↔ x < y)%Qc.
  rewrite (Qcplus_lt_mono_r (x - y) 0 y).
  by replace (x - y + y)%Qc with x by ring; rewrite Qcplus_0_l.
Qed.

Lemma sgnQc_Eq (x y : Qc) : sgnQc (Some (x - y)%Qc) = Eq ↔ x = y.
Proof.
  unfold sgnQc, Qccompare. rewrite <-Qeq_alt. split.
  - intros Heq. apply Qc_is_canon in Heq.
    replace x with (x - y + y)%Qc by ring. rewrite Heq. ring.
  - intros ->. by replace (y - y)%Qc with 0%Qc by ring.
Qed.

#[local] Instance rankedBefore_trans : Transitive rankedBefore.
Proof.
  intros a b c. unfold rankedBefore.
  destruct (score a) as [x|], (score b) as [y|], (score c) as [z|]; try done.
  intros [Hyx|[-> Hab]] [Hzy|[-> Hbc]].
  - left. by etrans.
  - by left.
  - by left.
  - right. split; [done|lia].
Qed.

(** X8. On a graph whose node list is in ascending order of identifier
    (as parseCSVToGraph returns it), with every node scored, the entries
    getRecommendations returns are ordered by descending score and, among
    equal scores, by ascending identifier. *)
Theorem getRecommendations_ties (a : PageRankApp) (g : Graph)
    (scores : gmap Z Qc) (n : Z) :
  graph a = Some g → pageRankScores a = Some scores →
  Forall (λ nd, is_Some (scores !! id nd)) (nodes g) →
  StronglySorted Z.lt (id <$> nodes g) →
  ∃ recs, getRecommendations a n = Normal recs
          ∧ StronglySorted rankedBefore recs.
Proof.
  intros Hg Hs Hscored Hsorted.
  exists (take 3 (Array_sort byScoreDesc (recommend scores <$> offered g n))).
  split; [by apply getRecommendations_eq|].
  assert (StronglySorted rankedBefore
            (Array_sort byScoreDesc (recommend scores <$> offered g n)))
    as Hall.
  { apply Sorted_StronglySorted; [apply _|].
    apply (Array_sort_stable byScoreDesc rankedBefore
             (λ r1 r2, node r1 < node r2) (λ r, is_Some (score r))).
    - intros r1 r2 [x Hx] [y Hy]. unfold byScoreDesc, rankedBefore.
      rewrite Hx, Hy, sgnQc_Lt. by left.
    - intros r1 r2 [x Hx] [y Hy]. unfold byScoreDesc, rankedBefore.
      rewrite Hx, Hy, sgnQc_Eq. intros -> ?. by right.
    - intros r1 r2 [x Hx] [y Hy]. unfold byScoreDesc, rankedBefore.
      rewrite Hx, Hy, sgnQc_Gt. by left.
    - apply Forall_fmap, Forall_forall. intros nd.
      unfold offered. rewrite list_elem_of_filter. intros [_ Hnd]. simpl.
      rewrite Forall_forall in Hscored. by apply Hscored.
    - apply (StronglySorted_fmap (recommend scores) (λ x y, id x < id y));
        [done|].
      unfold offered. apply StronglySorted_filter.
      by apply StronglySorted_fmap_inv. }
  rewrite <-(take_drop 3 (Array_sort _ _)) in Hall.
  by apply StronglySorted_app_1_l in Hall.
Qed.

Example getRecommendations_tie :
  getRecommendations tieApp 1
  = Normal [ {| node := 3; score := Some (Q2Qc (1 # 4)) |};
             {| node := 4; score := Some (Q2Qc (1 # 4)) |} ].
Proof. vm_compute. reflexivity. Qed.

Lemma getRecommendations_ties_witness :
  graph tieApp = Some tieGraph
  ∧ pageRankScores tieApp = Some tieScores
  ∧ Forall (λ nd, is_Some (tieScores !! id nd)) (nodes tieGraph)
  ∧ StronglySorted Z.lt (id <$> nodes tieGraph)
  ∧ ∃ recs, getRecommendations tieApp 1 = Normal recs
            ∧ StronglySorted rankedBefore recs.
Proof.
  assert (Forall (λ nd, is_Some (tieScores !! id nd)) (nodes tieGraph))
    as Hscored.
  { change (nodes tieGraph)
      with [ {| id := 1 |}; {| id := 2 |}; {| id := 3 |}; {| id := 4 |} ].
    repeat constructor; eexists; reflexivity. }
  assert (StronglySorted Z.lt (id <$> nodes tieGraph)) as Hsorted.
  { change (id <$> nodes tieGraph) with [1; 2; 3; 4].
    repeat constructor; lia. }
  split_and!; [reflexivity|reflexivity|exact Hscored|exact Hsorted|].
  exact (getRecommendations_ties tieApp tieGraph tieScores 1
           eq_refl eq_refl Hscored Hsorted).
Defined.

(** ** The table *)

Lemma Array_sort_sorted_id {A} (cmp : A → A → comparison) (l : list A) :
  StronglySorted (λ x y, cmp x y ≠ Gt) l → Array_sort cmp l = l.
Proof.
  induction 1 as [|x l Hs IH Hall]; simpl; [done|].
  rewrite IH. destruct l as [|y l]; simpl; [done|].
  apply Forall_cons in Hall as [Hxy _]. by destruct (cmp x y).
Qed.

Lemma StronglySorted_full {A} (R : relation A) (l : list A) :
  (∀ x y, x ∈ l → y ∈ l → R x y) → StronglySorted R l.
Proof.
  induction l as [|x l IH]; intros HR; constructor.
  - apply IH. intros y z Hy Hz. apply HR; by right.
  - apply Forall_forall. intros y Hy. apply HR; [left|by right].
Qed.

#[local] Instance rowOrder_trans (k : SortKey) (o : SortOrder) :
  Transitive (rowOrder k o).
Proof.
  intros a b c. unfold rowOrder.
  destruct (sortValue k a), (sortValue k b), (sortValue k c); try done.
  destruct o; intros ??; by etrans.
Qed.

Lemma byColumn_le (k : SortKey) (o : SortOrder) (a b : RowData) :
  is_Some (sortValue k a) → is_Some (sortValue k b) →
  byColumn k o a b ≠ Gt → rowOrder k o a b.
Proof.
  unfold byColumn, rowOrder, jsMinus. intros [x ->] [y ->].
  destruct o; rewrite sgnQc_Gt; apply Qcnot_lt_le.
Qed.

Lemma byColumn_gt (k : SortKey) (o : SortOrder) (a b : RowData) :
  is_Some (sortValue k a) → is_Some (sortValue k b) →
  byColumn k o a b = Gt → rowOrder k o b a.
Proof.
  unfold byColumn, rowOrder, jsMinus. intros [x ->] [y ->].
  destruct o; rewrite sgnQc_Gt; apply Qclt_le_weak.
Qed.

(** X10. The rows are in the order asked for: non-decreasing in the sort
    column when the direction is ascending, non-increasing when it is
    descending.  For the PageRank column this needs every node to have a
    score once scores are stored. *)
Theorem tableRows_sorted (a : PageRankApp) (g : Graph) :
  graph a = Some g →
  (sortBy a = ByPageRank →
   ∀ scores, pageRankScores a = Some scores →
             Forall (λ nd, is_Some (scores !! id nd)) (nodes g)) →
  ∃ rows, tableRows a = Normal rows
          ∧ StronglySorted (rowOrder (sortBy a) (sortOrder a)) rows.
Proof.
  intros Hg Hscored. unfold tableRows. rewrite Hg.
  eexists. split; [done|].
  apply Sorted_StronglySorted; [apply _|].
  apply (Array_sort_sorted _ _
           (λ r, is_Some (sortValue (sortBy a) r))).
  - apply byColumn_le.
  - apply byColumn_gt.
  - unfold nodesWithData. apply Forall_fmap, Forall_forall. intros nd Hnd.
    simpl. destruct (sortBy a) eqn:Hk; simpl; [done| |done].
    destruct (pageRankScores a) as [scores|] eqn:Hs; [|done].
    specialize (Hscored eq_refl scores eq_refl).
    rewrite Forall_forall in Hscored. by apply Hscored.
Qed.

(** X11. The sort keeps the order of the node list where it can: with
    no scores stored, sorting by PageRank in either direction leaves the
    rows in node-list order, and so does sorting by ascending identifier
    a node list that is in ascending order already. *)
Theorem tableRows_unchanged (a : PageRankApp) (g : Graph) :
  graph a = Some g →
  (pageRankScores a = None ∧ sortBy a = ByPageRank)
  ∨ (sortBy a = ById ∧ sortOrder a = Asc
     ∧ StronglySorted Z.lt (id <$> nodes g)) →
  tableRows a = Normal (nodesWithData a g).
Proof.
  intros Hg Hcase. unfold tableRows. rewrite Hg. f_equal.
  apply Array_sort_sorted_id.
  destruct Hcase as [[Hs Hk]|(Hk & Ho & Hsorted)].
  - apply StronglySorted_full. intros r1 r2.
    unfold nodesWithData.
    intros (n1 & -> & _)%list_elem_of_fmap (n2 & -> & _)%list_elem_of_fmap.
    rewrite Hk, Hs. unfold byColumn. simpl.
    replace (0 - 0)%Qc with 0%Qc by ring. by destruct (sortOrder a).
  - rewrite Hk, Ho. unfold nodesWithData.
    apply (StronglySorted_fmap _ (λ x y, id x < id y)).
    + intros n1 n2 Hlt. unfold byColumn, jsMinus, sortValue. cbn [row_id].
      rewrite sgnQc_Gt, <-Z2Qc_inj_lt. lia.
    + by apply StronglySorted_fmap_inv.
Qed.

Lemma tableRows_sorted_witness :
  graph (with_sort ByPageRank Desc sampleApp) = Some sampleGraph
  ∧ (∀ scores, pageRankScores (with_sort ByPageRank Desc sampleApp) = Some scores →
       Forall (λ nd, is_Some (scores !! id nd)) (nodes sampleGraph))
  ∧ ∃ rows, tableRows (with_sort ByPageRank Desc sampleApp) = Normal rows
            ∧ StronglySorted (rowOrder ByPageRank Desc) rows.
Proof.
  assert (∀ scores,
            pageRankScores (with_sort ByPageRank Desc sampleApp) = Some scores →
            Forall (λ nd, is_Some (scores !! id nd)) (nodes sampleGraph))
    as Hscored.
  { intros scores [= <-].
    change (nodes sampleGraph)
      with [ {| id := 1 |}; {| id := 2 |}; {| id := 3 |} ].
    repeat constructor; eexists; reflexivity. }
  split_and!; [reflexivity|exact Hscored|].
  exact (tableRows_sorted (with_sort ByPageRank Desc sampleApp) sampleGraph
           eq_refl (λ _, Hscored)).
Defined.

Lemma tableRows_unchanged_witness :
  graph (with_sort ByPageRank Desc (app sampleWorld)) = Some sampleGraph
  ∧ pageRankScores (with_sort ByPageRank Desc (app sampleWorld)) = None
  ∧ tableRows (with_sort ByPageRank Desc (app sampleWorld))
    = Normal (nodesWithData (with_sort ByPageRank Desc (app sampleWorld))
                            sampleGraph).
Proof.
  split_and!; [reflexivity..|].
  exact (tableRows_unchanged (with_sort ByPageRank Desc (app sampleWorld))
           sampleGraph eq_refl (or_introl (conj eq_refl eq_refl))).
Defined.

(** X12. A click on a table header makes its column the sort column (an
    unknown header sorts by identifier); the direction is ascending
    unless the column was the sort column already, in which case it is
    reversed, so that two clicks on the current column restore the state;
    nothing else of the state changes. *)
Theorem sortTable_toggle (column : string) (w : World) :
  sortBy (app (sortTable column w)) = columnKey column
  ∧ (sortBy (app w) ≠ columnKey column →
       sortOrder (app (sortTable column w)) = Asc)
  ∧ (sortBy (app w) = columnKey column →
       sortOrder (app (sortTable column w)) ≠ sortOrder (app w)
       ∧ sortTable column (sortTable column w) = w)
  ∧ graph (app (sortTable column w)) = graph (app w)
  ∧ pageRankScores (app (sortTable column w)) = pageRankScores (app w)
  ∧ selectedNode (app (sortTable column w)) = selectedNode (app w)
  ∧ isComputing (app (sortTable column w)) = isComputing (app w)
  ∧ pending (sortTable column w) = pending w
  ∧ alerts (sortTable column w) = alerts w.
Proof.
  unfold sortTable. fold (columnKey column).
  destruct w as [[g s n c k o] btn al pe]. simpl.
  case_bool_decide as Hk; simpl.
  - split_and!; try done.
    intros _. rewrite bool_decide_eq_true_2 by done. simpl.
    subst k. by destruct o.
  - by split_and!.
Qed.

Lemma sortTable_toggle_witness :
  sortBy (app newWorld) = columnKey "id"
  ∧ sortOrder (app (sortTable "id" newWorld)) = Desc
  ∧ sortTable "id" (sortTable "id" newWorld) = newWorld.
Proof.
  assert (sortBy (app newWorld) = columnKey "id") as Hk by reflexivity.
  split_and!; [exact Hk|reflexivity|].
  exact (proj2 (proj1 (proj2 (proj2 (sortTable_toggle "id" newWorld))) Hk)).
Defined.

(** ** The details pane *)

Lemma getRecommendations_scored (a : PageRankApp) (g : Graph)
    (scores : gmap Z Qc) (n : Z) :
  graph a = Some g → pageRankScores a = Some scores →
  Forall (λ nd, is_Some (scores !! id nd)) (nodes g) →
  ∃ recs, getRecommendations a n = Normal recs
          ∧ forallb (λ r, bool_decide (is_Some (score r))) recs = true.
Proof.
  intros Hg Hs Hscored. eexists. split; [by apply getRecommendations_eq|].
  apply Is_true_true, forallb_True, Forall_take.
  rewrite Array_sort_perm. apply Forall_fmap, Forall_forall. intros nd.
  unfold offered. rewrite list_elem_of_filter. intros [_ Hnd]. simpl.
  apply bool_decide_pack. rewrite Forall_forall in Hscored. by apply Hscored.
Qed.

Lemma showNodeDetails_scored (a : PageRankApp) (g : Graph)
    (scores : gmap Z Qc) (n : Z) :
  graph a = Some g → pageRankScores a = Some scores →
  Forall (λ nd, is_Some (scores !! id nd)) (nodes g) →
  is_Some (scores !! n) →
  showNodeDetails a n = Normal ().
Proof.
  intros Hg Hs Hscored Hn. unfold showNodeDetails. rewrite Hg, Hs.
  destruct (getRecommendations_scored a g scores n Hg Hs Hscored)
    as (recs & -> & ->).
  by rewrite bool_decide_eq_true_2.
Qed.

(** X13. showNodeDetails tolerates an identifier that is not a key of
    the adjacency list only while no scores are stored: with scores
    stored it throws for every identifier that has no score, and it
    returns normally for a scored identifier when every node of the graph
    is scored. *)
Theorem showNodeDetails_outcome (a : PageRankApp) (g : Graph) (n : Z) :
  graph a = Some g →
  (pageRankScores a = None → showNodeDetails a n = Normal ())
  ∧ (∀ scores, pageRankScores a = Some scores → scores !! n = None →
       showNodeDetails a n = Throw TypeError)
  ∧ (∀ scores, pageRankScores a = Some scores →
       Forall (λ nd, is_Some (scores !! id nd)) (nodes g) →
       is_Some (scores !! n) →
       showNodeDetails a n = Normal ()).
Proof.
  intros Hg. split_and!.
  - unfold showNodeDetails. rewrite Hg. by intros ->.
  - intros scores Hs Hn. unfold showNodeDetails. rewrite Hg, Hs.
    rewrite (getRecommendations_eq a g scores n Hg Hs).
    rewrite (bool_decide_eq_false_2 (is_Some (scores !! n)))
      by (rewrite Hn; by intros [? ?]).
    by rewrite andb_false_r.
  - intros scores Hs Hscored Hn.
    by apply (showNodeDetails_scored a g scores n).
Qed.

Lemma showNodeDetails_outcome_witness :
  graph sampleApp = Some sampleGraph
  ∧ pageRankScores sampleApp = Some sampleScores
  ∧ sampleScores !! 99 = None
  ∧ showNodeDetails sampleApp 99 = Throw TypeError
  ∧ showNodeDetails (app sampleWorld) 99 = Normal ().
Proof.
  split_and!; [reflexivity..| |].
  - exact (proj1 (proj2 (showNodeDetails_outcome sampleApp sampleGraph 99
                           eq_refl)) sampleScores eq_refl eq_refl).
  - exact (proj1 (showNodeDetails_outcome (app sampleWorld) sampleGraph 99
                    eq_refl) eq_refl).
Defined.

(** ** After the engine has answered *)

Lemma updateTable_Normal (a : PageRankApp) (g : Graph) :
  graph a = Some g →
  updateTable a = Normal ()
  ↔ ∀ scores, pageRankScores a = Some scores →
              Forall (λ nd, is_Some (scores !! id nd)) (nodes g).
Proof.
  intros Hg. unfold updateTable. rewrite Hg.
  destruct (pageRankScores a) as [scores|]; [|by split].
  destruct (forallb _ _) eqn:Hall.
  - split; [|done]. intros _ ? [= <-].
    apply Is_true_true, forallb_True in Hall.
    eapply Forall_impl; [exact Hall|]. intros nd. apply bool_decide_unpack.
  - split; [done|]. intros Hs. specialize (Hs scores eq_refl).
    assert (forallb (λ nd, bool_decide (is_Some (scores !! id nd))) (nodes g)
            = true) as Hall'; [|congruence].
    apply Is_true_true, forallb_True.
    eapply Forall_impl; [exact Hs|]. intros nd. apply bool_decide_pack.
Qed.

(** X14. The scores the engine returns are stored before the table and
    the details pane are refreshed.  If some node of the graph has no
    score in them, the refresh throws: the error alert is shown, yet the
    new scores stay stored.  If every node is scored, and so is the
    selected node, no alert is shown.  Either way isComputing is cleared
    and the button released. *)
Theorem computePageRank_resume_Resolved (scores : gmap Z Qc) (w : World)
    (g : Graph) :
  pending w ≠ [] → graph (app w) = Some g →
  pageRankScores (app (computePageRank_resume (Resolved scores) w))
    = Some scores
  ∧ isComputing (app (computePageRank_resume (Resolved scores) w)) = false
  ∧ computeBtn (computePageRank_resume (Resolved scores) w) = idleBtn
  ∧ (¬ Forall (λ nd, is_Some (scores !! id nd)) (nodes g) →
       alerts (computePageRank_resume (Resolved scores) w)
       = alerts w ++ [ComputeError])
  ∧ (Forall (λ nd, is_Some (scores !! id nd)) (nodes g) →
     (∀ n, truthy (selectedNode (app w)) = Some n → is_Some (scores !! n)) →
       alerts (computePageRank_resume (Resolved scores) w) = alerts w).
Proof.
  intros Hp Hg. unfold computePageRank_resume.
  destruct (pending w) as [|adj rest]; [done|]. simpl.
  set (a := with_scores (Some scores) (app w)).
  assert (graph a = Some g) as Hga by done.
  split_and!.
  - by destruct (afterAssign a).
  - by destruct (afterAssign a).
  - by destruct (afterAssign a).
  - intros Hmissing.
    assert (afterAssign a = Throw TypeError) as ->; [|done].
    unfold afterAssign.
    destruct (updateTable a) as [[]|e] eqn:Hu.
    + exfalso. apply Hmissing.
      by apply (proj1 (updateTable_Normal a g Hga) Hu scores).
    + unfold updateTable in Hu. rewrite Hga in Hu. simpl in Hu.
      destruct (forallb _ _); by inversion Hu.
  - intros Hscored Hsel.
    assert (afterAssign a = Normal ()) as ->;
      [|simpl; by rewrite app_nil_r].
    unfold afterAssign.
    assert (updateTable a = Normal ()) as ->.
    { apply (updateTable_Normal a g Hga). by intros ? [= <-]. }
    change (selectedNode a) with (selectedNode (app w)).
    destruct (truthy (selectedNode (app w))) as [n|] eqn:Hn; [|done].
    apply (showNodeDetails_scored a g scores n); [done..|]. by apply Hsel.
Qed.

Lemma computePageRank_resume_Resolved_witness :
  pending (run [Loaded sampleGraph; ClickCompute]) ≠ []
  ∧ graph (app (run [Loaded sampleGraph; ClickCompute])) = Some sampleGraph
  ∧ ¬ Forall (λ nd, is_Some (partialScores !! id nd)) (nodes sampleGraph)
  ∧ alerts (computePageRank_resume (Resolved partialScores)
              (run [Loaded sampleGraph; ClickCompute]))
    = [ComputeError]
  ∧ pageRankScores (app (computePageRank_resume (Resolved partialScores)
                           (run [Loaded sampleGraph; ClickCompute])))
    = Some partialScores.
Proof.
  assert (pending (run [Loaded sampleGraph; ClickCompute]) ≠ []) as Hp
    by discriminate.
  assert (¬ Forall (λ nd, is_Some (partialScores !! id nd))
              (nodes sampleGraph)) as Hmiss.
  { change (nodes sampleGraph)
      with [ {| id := 1 |}; {| id := 2 |}; {| id := 3 |} ].
    intros Hall. apply Forall_cons in Hall as [_ Hall].
    apply Forall_cons in Hall as [[x Hx] _]. discriminate Hx. }
  split_and!; [exact Hp|reflexivity|exact Hmiss| |].
  - exact (proj1 (proj2 (proj2 (proj2
             (computePageRank_resume_Resolved partialScores _ sampleGraph
                Hp eq_refl)))) Hmiss).
  - exact (proj1 (computePageRank_resume_Resolved partialScores _ sampleGraph
                    Hp eq_refl)).
Defined.

(** ** Reset and connect while a computation is awaited *)

(** X15. resetGraph clears the stored scores and the selection but does
    not touch isComputing or the awaited engine invocation: when that
    invocation resolves after the reset, its scores are stored. *)
Theorem resetGraph_keeps_pending (scores : gmap Z Qc) (w : World) :
  pageRankScores (app (resetGraph w)) = None
  ∧ selectedNode (app (resetGraph w)) = None
  ∧ isComputing (app (resetGraph w)) = isComputing (app w)
  ∧ pending (resetGraph w) = pending w
  ∧ graph (app (resetGraph w)) = graph (app w)
  ∧ (pending w ≠ [] →
       pageRankScores
         (app (computePageRank_resume (Resolved scores) (resetGraph w)))
       = Some scores).
Proof.
  split_and!; try done.
  intros Hp. unfold computePageRank_resume.
  change (pending (resetGraph w)) with (pending w).
  destruct (pending w) as [|adj rest]; [done|]. simpl.
  by destruct (afterAssign _).
Qed.

Lemma resetGraph_keeps_pending_witness :
  pending (run [Loaded sampleGraph; ClickCompute]) ≠ []
  ∧ pageRankScores
      (app (run [Loaded sampleGraph; ClickCompute; ClickReset;
                 Settle (Resolved sampleScores)]))
    = Some sampleScores.
Proof.
  assert (pending (run [Loaded sampleGraph; ClickCompute]) ≠ []) as Hp
    by discriminate.
  split; [exact Hp|].
  exact (proj2 (proj2 (proj2 (proj2 (proj2
           (resetGraph_keeps_pending sampleScores
              (run [Loaded sampleGraph; ClickCompute])))))) Hp).
Defined.

(** X16. connectNodes announces a recomputation and asks for one only
    when neither identifier is missing; the request starts an engine
    invocation on the updated adjacency list when none is awaited, and is
    dropped when one is.  When an identifier is missing nothing is
    announced and nothing started. *)
Theorem connectNodes_recompute (s t : Z) (w : World) (g : Graph) :
  graph (app w) = Some g →
  graph (app (connectNodes s t w)) = Some (connectNodes_graph s t g).1
  ∧ pageRankScores (app (connectNodes s t w)) = pageRankScores (app w)
  ∧ ((connectNodes_graph s t g).2 = Normal () →
       alerts (connectNodes s t w) = alerts w ++ [Connected s t]
       ∧ (isComputing (app w) = true →
            pending (connectNodes s t w) = pending w)
       ∧ (isComputing (app w) = false →
            pending (connectNodes s t w)
            = pending w ++ [adjacencyList (connectNodes_graph s t g).1]
            ∧ isComputing (app (connectNodes s t w)) = true))
  ∧ ((connectNodes_graph s t g).2 ≠ Normal () →
       alerts (connectNodes s t w) = alerts w
       ∧ pending (connectNodes s t w) = pending w
       ∧ isComputing (app (connectNodes s t w)) = isComputing (app w)).
Proof.
  intros Hg. unfold connectNodes. rewrite Hg.
  destruct (connectNodes_graph s t g) as [g' [[]|e]]; simpl.
  - unfold computePageRank_begin. simpl.
    destruct (isComputing (app w)) eqn:Hc; simpl.
    + by split_and!.
    + by split_and!.
  - by split_and!.
Qed.

Lemma connectNodes_recompute_witness :
  graph (app (run [Loaded sampleGraph; ClickCompute])) = Some sampleGraph
  ∧ (connectNodes_graph 1 3 sampleGraph).2 = Normal ()
  ∧ isComputing (app (run [Loaded sampleGraph; ClickCompute])) = true
  ∧ pending (connectNodes 1 3 (run [Loaded sampleGraph; ClickCompute]))
    = pending (run [Loaded sampleGraph; ClickCompute]).
Proof.
  assert ((connectNodes_graph 1 3 sampleGraph).2 = Normal ()) as Hn
    by reflexivity.
  split_and!; [reflexivity|exact Hn|reflexivity|].
  exact (proj1 (proj2 (proj1 (proj2 (proj2
           (connectNodes_recompute 1 3
              (run [Loaded sampleGraph; ClickCompute]) sampleGraph eq_refl)))
           Hn)) eq_refl).
Defined.

(** ** What holds in every state the page can reach *)

Lemma computePageRank_begin_button (w : World) :
  buttonInStep w → buttonInStep (computePageRank_begin w).1.
Proof.
  unfold buttonInStep, computePageRank_begin.
  destruct (isComputing (app w)) eqn:Hc; simpl; [by rewrite Hc|].
  intros _. by destruct (graph (app w)).
Qed.

Lemma step_button (w : World) (ev : event) :
  buttonInStep w → buttonInStep (step w ev).
Proof.
  intros Hw. destruct ev as [|o|s t| |g|n|c]; simpl.
  - by apply computePageRank_begin_button.
  - unfold computePageRank_resume.
    destruct (pending w) as [|adj rest]; [done|].
    destruct o as [scores|]; simpl; [|done].
    by destruct (afterAssign _).
  - unfold connectNodes. destruct (graph (app w)) as [g|]; [|done].
    destruct (connectNodes_graph s t g) as [g' [[]|e]]; [|done].
    by apply computePageRank_begin_button.
  - done.
  - done.
  - done.
  - unfold sortTable. by case_bool_decide.
Qed.

(** X17. In every state the page can reach, the compute button is
    disabled and reads "Computing..." exactly while isComputing is set,
    and is enabled and reads "Compute PageRank" otherwise. *)
Theorem computeBtn_follows_isComputing (evs : list event) :
  computeBtn (run evs) = if isComputing (app (run evs)) then busyBtn else idleBtn.
Proof.
  change (buttonInStep (run evs)).
  induction evs as [|ev evs IH] using rev_ind; [done|].
  rewrite run_snoc. by apply step_button.
Qed.

Lemma computePageRank_begin_graph (w : World) :
  graph (app (computePageRank_begin w).1) = graph (app w).
Proof.
  unfold computePageRank_begin.
  destruct (isComputing (app w)); [done|]. simpl.
  destruct (graph (app w)) eqn:Hg; simpl; by rewrite Hg.
Qed.

Lemma computePageRank_resume_graph (o : outcome) (w : World) :
  graph (app (computePageRank_resume o w)) = graph (app w).
Proof.
  unfold computePageRank_resume.
  destruct (pending w); [done|]. destruct o; simpl; [|done].
  by destruct (afterAssign _).
Qed.

(** X18. Only the loading of data changes which nodes there are: after
    any other event the node list and the set of keys of the adjacency
    list are what they were, so connectNodes never creates a node. *)
Theorem step_keeps_nodes (w : World) (ev : event) :
  (∀ g, ev ≠ Loaded g) →
  nodes <$> graph (app (step w ev)) = nodes <$> graph (app w)
  ∧ (λ g, dom (adjacencyList g)) <$> graph (app (step w ev))
    = (λ g, dom (adjacencyList g)) <$> graph (app w).
Proof.
  intros Hev. destruct ev as [|o|s t| |g|n|c]; simpl.
  - by rewrite computePageRank_begin_graph.
  - by rewrite computePageRank_resume_graph.
  - unfold connectNodes. destruct (graph (app w)) as [g|] eqn:Hg;
      [|by rewrite Hg].
    assert (nodes (connectNodes_graph s t g).1 = nodes g) as Hn.
    { unfold connectNodes_graph. simpl.
      destruct (adjacencyList g !! s); [|done]. by destruct (_ !! t). }
    assert (dom (adjacencyList (connectNodes_graph s t g).1)
            = dom (adjacencyList g)) as Hd.
    { apply set_eq. intros a.
      by rewrite !elem_of_dom, connectNodes_graph_is_Some. }
    destruct (connectNodes_graph s t g) as [g' [[]|e]]; simpl in *.
    + rewrite computePageRank_begin_graph. simpl. by rewrite Hn, Hd.
    + by rewrite Hn, Hd.
  - done.
  - by destruct (Hev g).
  - done.
  - unfold sortTable. by case_bool_decide.
Qed.

Lemma step_keeps_nodes_witness :
  (∀ g, ClickConnect 1 99 ≠ Loaded g)
  ∧ nodes <$> graph (app (step sampleWorld (ClickConnect 1 99)))
    = nodes <$> graph (app sampleWorld).
Proof.
  assert (∀ g, ClickConnect 1 99 ≠ Loaded g) as Hev by discriminate.
  split; [exact Hev|].
  exact (proj1 (step_keeps_nodes sampleWorld (ClickConnect 1 99) Hev)).
Defined.

(** ** Loading data *)

Example createDefaultGraph_returns :
  ∃ g, createDefaultGraph = Normal g
       ∧ id <$> nodes g = [1; 2; 3; 4; 5; 6; 7; 8; 9; 10]
       ∧ adjacencyList g !! 1 = Some [2; 3; 10]
       ∧ adjacencyList g !! 4 = Some [2; 3; 5].
Proof. eexists. split; [reflexivity|]. by vm_compute. Qed.

(** X19. loadDefaultData always leaves a graph installed and touches
    nothing but the graph.  The graph is the one parsed from the fetched
    text (from the built-in data when fetching failed), and the method
    completes normally, exactly when no stored score map lacks a score
    for a parsed node.  When scores are stored and some parsed node has
    none, refreshing the table throws and the graph of createDefaultGraph
    is installed in its place, the method completing as the second
    refresh does.  A fetched text without a well-formed line installs
    the graph without nodes, not the built-in data. *)
Theorem loadDefaultData_installs `{Builtins} (fetched : option string)
    (w : World) :
  is_Some (graph (app (loadDefaultData fetched w).1))
  ∧ (∀ g, graph (app (loadDefaultData fetched w).1) = Some g →
       g = parseCSVToGraph (default getDefaultGraphData fetched)
       ∨ createDefaultGraph = Normal g)
  ∧ ((∀ scores, pageRankScores (app w) = Some scores →
        Forall (λ nd, is_Some (scores !! id nd))
               (nodes (parseCSVToGraph (default getDefaultGraphData fetched))))
     ↔ graph (app (loadDefaultData fetched w).1)
         = Some (parseCSVToGraph (default getDefaultGraphData fetched))
       ∧ (loadDefaultData fetched w).2 = Normal ())
  ∧ (∀ scores nd,
       pageRankScores (app w) = Some scores →
       nd ∈ nodes (parseCSVToGraph (default getDefaultGraphData fetched)) →
       scores !! id nd = None →
       ∃ g0, createDefaultGraph = Normal g0
             ∧ graph (app (loadDefaultData fetched w).1) = Some g0
             ∧ (loadDefaultData fetched w).2
               = updateTable (with_graph (Some g0) (app w)))
  ∧ (∀ text, fetched = Some text → accepted text = [] →
       graph (app (loadDefaultData fetched w).1)
       = Some {| nodes := []; edges := []; adjacencyList := ∅ |})
  ∧ pageRankScores (app (loadDefaultData fetched w).1) = pageRankScores (app w)
  ∧ isComputing (app (loadDefaultData fetched w).1) = isComputing (app w)
  ∧ pending (loadDefaultData fetched w).1 = pending w
  ∧ alerts (loadDefaultData fetched w).1 = alerts w.
Proof.
  destruct createDefaultGraph as [g0|e] eqn:Hg0; [|by vm_compute in Hg0].
  unfold loadDefaultData. rewrite Hg0.
  set (text := match fetched with Some t => t | None => getDefaultGraphData end).
  change (default getDefaultGraphData fetched) with text.
  set (a := with_graph (Some (parseCSVToGraph text)) (app w)).
  pose proof (updateTable_Normal a (parseCSVToGraph text) eq_refl) as Hu.
  change (pageRankScores a) with (pageRankScores (app w)) in Hu.
  destruct (updateTable a) as [[]|e] eqn:Hut; simpl.
  - split_and!; try done.
    + intros g [= <-]. by left.
    + split; [done|]. intros _. by apply Hu.
    + intros scores nd Hs Hnd Hnone. exfalso.
      pose proof (proj1 Hu eq_refl scores Hs) as Hall.
      rewrite Forall_forall in Hall. specialize (Hall nd Hnd).
      rewrite Hnone in Hall. by destruct Hall.
    + intros t -> Hacc. unfold text.
      by rewrite (parseCSVToGraph_no_lines t Hacc).
  - split_and!; try done.
    + intros g [= <-]. by right.
    + split.
      * intros Hs. apply Hu in Hs. discriminate Hs.
      * intros [[= Heq] Hn]. exfalso. rewrite Heq in Hn.
        change (updateTable a = Normal ()) in Hn. by rewrite Hut in Hn.
    + intros scores nd _ _ _. by exists g0.
    + intros t -> Hacc. exfalso.
      assert (Throw e = Normal ()) as Hn; [|done].
      apply Hu. intros scores _. unfold text.
      rewrite (parseCSVToGraph_no_lines t Hacc). constructor.
Qed.

Lemma loadDefaultData_installs_witness :
  pageRankScores (app staleWorld) = Some partialScores
  ∧ {| id := 2 |} ∈ nodes (@parseCSVToGraph decimalBuiltins twoLines)
  ∧ partialScores !! 2 = None
  ∧ ∃ g0, createDefaultGraph = Normal g0
          ∧ graph (app (@loadDefaultData decimalBuiltins (Some twoLines)
                          staleWorld).1) = Some g0
          ∧ (@loadDefaultData decimalBuiltins (Some twoLines) staleWorld).2
            = updateTable (with_graph (Some g0) (app staleWorld)).
Proof.
  assert ({| id := 2 |} ∈ nodes (@parseCSVToGraph decimalBuiltins twoLines))
    as Hnd by (vm_compute; right; left).
  split_and!; [reflexivity|exact Hnd|reflexivity|].
  exact (proj1 (proj2 (proj2 (proj2
           (@loadDefaultData_installs decimalBuiltins (Some twoLines)
              staleWorld))))
           partialScores {| id := 2 |} eq_refl Hnd eq_refl).
Defined.

(** ** The rows the table receives *)

Lemma appendRows_prefix (rows : list RowData) :
  (appendRows rows).1 `prefix_of` rows
  ∧ Forall (λ r, is_Some (row_pageRank r)) (appendRows rows).1.
Proof.
  induction rows as [|r rows [IH1 IH2]]; simpl; [done|].
  destruct (row_pageRank r) as [x|] eqn:Hr.
  - destruct (appendRows rows) as [appended c]. simpl in *. split.
    + by apply prefix_cons.
    + constructor; [by rewrite Hr|done].
  - split; [apply prefix_nil|constructor].
Qed.

Lemma appendRows_scored (rows : list RowData) :
  Forall (λ r, is_Some (row_pageRank r)) rows →
  appendRows rows = (rows, Normal ()).
Proof.
  induction 1 as [|r rows [x Hr] _ IH]; simpl; [done|].
  by rewrite Hr, IH.
Qed.

Lemma appendRows_unscored (rows : list RowData) :
  ¬ Forall (λ r, is_Some (row_pageRank r)) rows →
  (appendRows rows).2 = Throw TypeError
  ∧ ∃ r, rows !! length (appendRows rows).1 = Some r ∧ row_pageRank r = None.
Proof.
  induction rows as [|r rows IH]; simpl; intros Hnot.
  - destruct Hnot. constructor.
  - destruct (row_pageRank r) as [x|] eqn:Hr.
    + destruct IH as [IH1 (r' & IH2 & IH3)].
      { intros Hall. apply Hnot. constructor; [by rewrite Hr|done]. }
      destruct (appendRows rows) as [appended c]. simpl in *. eauto.
    + split; [done|]. by exists r.
Qed.

Lemma nodesWithData_scored (a : PageRankApp) (g : Graph) :
  Forall (λ r, is_Some (row_pageRank r)) (nodesWithData a g)
  ↔ ∀ scores, pageRankScores a = Some scores →
              Forall (λ nd, is_Some (scores !! id nd)) (nodes g).
Proof.
  unfold nodesWithData. rewrite Forall_fmap. simpl.
  destruct (pageRankScores a) as [scores|]; split.
  - by intros Hall ? [= <-].
  - intros Hall. by apply Hall.
  - by intros _ ? [=].
  - intros _. apply Forall_forall. intros nd _. simpl. by eexists.
Qed.

(** X9. updateTable goes through the rows in sorted order and appends
    them up to the first node that has no score in the stored scores,
    where it throws; it appends them all, one row for each entry of the
    node list, exactly when it returns normally, that is when no stored
    score map lacks a node.  Without a graph it throws with the table
    empty. *)
Theorem renderedTable_rows (a : PageRankApp) :
  (renderedTable a).2 = updateTable a
  ∧ (graph a = None → renderedTable a = ([], Throw TypeError))
  ∧ ∀ g, graph a = Some g →
      ∃ sorted,
        tableRows a = Normal sorted
        ∧ sorted ≡ₚ nodesWithData a g
        ∧ (renderedTable a).1 `prefix_of` sorted
        ∧ Forall (λ r, is_Some (row_pageRank r)) (renderedTable a).1
        ∧ (updateTable a = Normal () →
             (renderedTable a).1 = sorted
             ∧ row_id <$> (renderedTable a).1 ≡ₚ id <$> nodes g)
        ∧ (updateTable a ≠ Normal () →
             ∃ r, sorted !! length (renderedTable a).1 = Some r
                  ∧ row_pageRank r = None).
Proof.
  assert (∀ g, graph a = Some g →
            ∃ sorted, tableRows a = Normal sorted
                      ∧ sorted ≡ₚ nodesWithData a g
                      ∧ renderedTable a = appendRows sorted
                      ∧ (updateTable a = Normal ()
                         ↔ Forall (λ r, is_Some (row_pageRank r)) sorted))
    as Hshape.
  { intros g Hg. unfold renderedTable, tableRows. rewrite Hg.
    eexists. split_and!; [done|apply Array_sort_perm|done|].
    rewrite Array_sort_perm, nodesWithData_scored.
    by apply updateTable_Normal. }
  split_and!.
  - destruct (graph a) as [g|] eqn:Hg.
    + destruct (Hshape g eq_refl) as (sorted & _ & _ & -> & Hu).
      destruct (decide (Forall (λ r, is_Some (row_pageRank r)) sorted))
        as [Hall|Hnot].
      * rewrite (appendRows_scored sorted Hall). symmetry. by apply Hu.
      * rewrite (proj1 (appendRows_unscored sorted Hnot)).
        unfold updateTable in *. rewrite Hg in *.
        destruct (pageRankScores a); [|by destruct Hnot; apply Hu].
        destruct (forallb _ _); [by destruct Hnot; apply Hu|done].
    + unfold renderedTable, tableRows, updateTable. by rewrite Hg.
  - intros Hg. unfold renderedTable, tableRows. by rewrite Hg.
  - intros g Hg. destruct (Hshape g Hg) as (sorted & Ht & Hperm & -> & Hu).
    exists sorted. split_and!; [done|done|apply appendRows_prefix..| |].
    + intros Hn. apply Hu in Hn. rewrite (appendRows_scored sorted Hn).
      simpl. split; [done|]. rewrite Hperm. unfold nodesWithData.
      by rewrite <-list_fmap_compose.
    + intros Hn. apply appendRows_unscored. by rewrite <-Hu.
Qed.

Lemma renderedTable_rows_witness :
  graph gapApp = Some gapGraph
  ∧ updateTable gapApp ≠ Normal ()
  ∧ row_id <$> (renderedTable gapApp).1 = [1; 2]
  ∧ ∃ sorted,
      tableRows gapApp = Normal sorted
      ∧ sorted ≡ₚ nodesWithData gapApp gapGraph
      ∧ (renderedTable gapApp).1 `prefix_of` sorted
      ∧ Forall (λ r, is_Some (row_pageRank r)) (renderedTable gapApp).1
      ∧ (updateTable gapApp = Normal () →
           (renderedTable gapApp).1 = sorted
           ∧ row_id <$> (renderedTable gapApp).1 ≡ₚ id <$> nodes gapGraph)
      ∧ (updateTable gapApp ≠ Normal () →
           ∃ r, sorted !! length (renderedTable gapApp).1 = Some r
                ∧ row_pageRank r = None).
Proof.
  split_and!; [reflexivity|by vm_compute|by vm_compute|].
  exact (proj2 (proj2 (renderedTable_rows gapApp)) gapGraph eq_refl).
Defined.
